(** * Boost.Fiber context-switch benchmark: model and verification

    Shallow embedding of [Boost/Fiber/benchmark.cpp].

    - [install_fiber_scheduler], the [bench] countdown loop, the output
      written to [std::cout] and the sweep of [main] are pure functions.
    - One call of [bench_mark] is a transition system: the calling thread
      (the driver), the worker threads started with [std::async] and the
      fibers are interleaved one atomic action at a time.  The Boost and
      standard-library primitives are taken by their contracts: a barrier
      releases its waiters when the last participant arrives, [join]
      returns once the fiber function has returned, [value_pop] on a
      channel nobody pushes to blocks until the channel is closed and then
      throws, [future::get] returns once the thread function has returned.
    - The worker lambda captures by reference and reads the index [i] of
      the [iota_view] after the barrier; the model gives every worker the
      index its thread was launched with.
    - [int] values are [Z]; the places where the source converts or may
      overflow are written out ([barrier_count], [bench_step],
      [thread_loop]). *)

From Stdlib Require Import ZArith Floats Uint63 String Ascii DecimalString.
From stdpp Require Import base list sorting.

Local Open Scope Z_scope.

(** ** Data *)

(** [enum class sched] *)
Inductive sched : Set :=
| round_robin
| shared_work
| work_stealing.

#[global] Instance sched_eq_dec : EqDecision sched.
Proof. solve_decision. Defined.

(** [static_cast<int>(scheduler)] *)
Definition sched_ordinal (s : sched) : Z :=
  match s with
  | round_robin => 0
  | shared_work => 1
  | work_stealing => 2
  end.

(** The arguments of one call of [bench_mark]. *)
Record config : Set := mkConfig {
  thread_number : Z;
  fiber_number : Z;
  iterations : Z;
  scheduler : sched;
  suspend : bool
}.

Definition INT_MIN : Z := - 2 ^ 31.
Definition INT_MAX : Z := 2 ^ 31 - 1.

Definition int_range (z : Z) : Prop := INT_MIN <= z <= INT_MAX.


(** ** [install_fiber_scheduler] *)

(** The calls into the fiber runtime that select an algorithm. *)
Inductive algo_call : Set :=
| use_shared_work
| use_work_stealing (thread_count : Z) (suspend_flag : bool).

Definition install_fiber_scheduler (scheduler : sched) (thread_number : Z)
  (suspend : bool) : list algo_call :=
  (if decide (scheduler = shared_work) then [use_shared_work] else []) ++
  (if decide (scheduler = work_stealing)
   then [use_work_stealing thread_number suspend] else []).

(** ** The [bench] workload *)

(** One turn of [for (auto counter = iterations; counter != 0; --counter)
    yield();] starting at the loop test.  [--counter] on [INT_MIN] is a
    signed overflow, which C++ leaves undefined. *)
Inductive bench_res : Set :=
| BReturn
| BYield (counter' : Z)
| BYieldUndef.

Definition bench_step (counter : Z) : bench_res :=
  if counter =? 0 then BReturn
  else if counter =? INT_MIN then BYieldUndef
  else BYield (counter - 1).

(** Result of running the loop alone. *)
Inductive bench_outcome : Set :=
| Returned (yields : nat)
| Undefined (yields : nat)
| Running (yields : nat).

Fixpoint bench_loop (fuel : nat) (counter : Z) (yields : nat) : bench_outcome :=
  match fuel with
  | O => Running yields
  | S fuel' =>
      match bench_step counter with
      | BReturn => Returned yields
      | BYieldUndef => Undefined (S yields)
      | BYield c' => bench_loop fuel' c' (S yields)
      end
  end.

(** The lambda [bench]: [counter] starts at the captured [iterations]. *)
Definition bench (fuel : nat) (iterations : Z) : bench_outcome :=
  bench_loop fuel iterations 0.

(** ** Output *)

(** What is inserted into [std::cout], one item per [operator<<]. *)
Inductive out_item : Set :=
| OStr (s : string)
| OInt (z : Z)
| ODouble (d : float)
| OFlush
| OEndl.

(** Conversion of an [int] (or a tick count) to [double]. *)
Definition double_of_Z (z : Z) : float :=
  if z <? 0 then PrimFloat.opp (PrimFloat.of_uint63 (Uint63.of_Z (- z)))
  else PrimFloat.of_uint63 (Uint63.of_Z z).

(** Conversion of a [double] to [int]: truncation toward zero. *)
Definition int_of_double (f : float) : Z :=
  match Prim2SF f with
  | S754_finite s m e =>
      let a := if 0 <=? e then Z.pos m * 2 ^ e else Z.pos m / 2 ^ (- e) in
      if s then - a else a
  | _ => 0
  end.

(** [std::chrono::duration<double>] of a difference of two readings of
    [clk]; the clock counts nanoseconds ([clk::period] is [std::nano]). *)
Definition duration_count (starting_point now : Z) : float :=
  (double_of_Z (now - starting_point) / 1e9)%float.

(** Lines 51-55. *)
Definition header (cfg : config) : list out_item :=
  [ OStr "threads: "; OInt (thread_number cfg);
    OStr " fibers: "; OInt (fiber_number cfg);
    OStr " iterations: "; OInt (iterations cfg);
    OStr " scheduler: "; OInt (sched_ordinal (scheduler cfg));
    OStr " suspend: "; OInt (Z.b2z (suspend cfg));
    OFlush ].

(** Line 114: [duration.count()/iterations/fiber_number*1e9]. *)
Definition inter_context_switch (cfg : config) (duration : float) : float :=
  (duration / double_of_Z (iterations cfg) / double_of_Z (fiber_number cfg)
   * 1e9)%float.

(** Lines 111-114. *)
Definition result_line (cfg : config) (duration : float) : list out_item :=
  [ OStr " time: "; ODouble duration;
    OStr " inter context switch: ";
    ODouble (inter_context_switch cfg duration);
    OEndl ].

Definition string_of_Z (z : Z) : string :=
  NilZero.string_of_int (Z.to_int z).

Definition newline : string := String (ascii_of_nat 10) EmptyString.

(** The characters an item adds to the stream; how a [double] is printed
    is left to [show_double]. *)
Definition render_item (show_double : float -> string) (o : out_item) : string :=
  match o with
  | OStr s => s
  | OInt z => string_of_Z z
  | ODouble d => show_double d
  | OFlush => EmptyString
  | OEndl => newline
  end.

Definition render (show_double : float -> string) (os : list out_item) : string :=
  foldr (fun o acc => String.append (render_item show_double o) acc)
        EmptyString os.

(** ** One trial: the state of a call of [bench_mark] *)

(** Where the calling thread is in [bench_mark]. *)
Inductive dpc : Set :=
| DHeader                (* line 51: about to write the header *)
| DSetup                 (* lines 64-67: barrier and channel constructors *)
| DClock0                (* line 69 *)
| DLaunch (k : nat)      (* lines 72-103: [k] threads started *)
| DGet (k : nat)         (* lines 105-106: [k] futures collected *)
| DClock1                (* line 109 *)
| DResult                (* lines 111-114 *)
| DDone                  (* returned *)
| DThrown.               (* left by an exception *)

(** Where a worker thread is in the lambda of lines 75-102. *)
Inductive wpc : Set :=
| WInstall               (* line 78 *)
| WBarrier               (* line 82: about to call [count_down_and_wait] *)
| WWait                  (* line 82: inside [count_down_and_wait] *)
| WBranch                (* line 83 *)
| WSpawn (k : nat)       (* lines 85-88: [k] fibers constructed *)
| WJoin (k : nat)        (* lines 90-91: [k] fibers joined *)
| WClose                 (* line 93 *)
| WPop                   (* line 100: inside [value_pop] *)
| WThrown                (* line 100: [value_pop] has thrown, inside [try] *)
| WDone                  (* the lambda has returned *)
| WFailed.               (* an exception has left the lambda *)

(** Where a fiber is in [bench]. *)
Inductive fpc : Set :=
| FLoop (counter : Z)    (* at the loop test *)
| FDone                  (* [bench] has returned *)
| FUndef.                (* signed overflow of [counter] *)

(** [boost::fibers::unbuffered_channel<int> blocker] *)
Inductive chan : Set := Open | Closed.

#[global] Instance dpc_eq_dec : EqDecision dpc.
Proof. solve_decision. Defined.
#[global] Instance wpc_eq_dec : EqDecision wpc.
Proof. solve_decision. Defined.
#[global] Instance fpc_eq_dec : EqDecision fpc.
Proof. solve_decision. Defined.
#[global] Instance chan_eq_dec : EqDecision chan.
Proof. solve_decision. Defined.

(** What has happened, as seen from outside. *)
Inductive event : Set :=
| EvHeader                                  (* header written and flushed *)
| EvClock (t : Z)                           (* [clk::now()] returned [t] *)
| EvLaunch (i : nat)                        (* [std::async] started thread [i] *)
| EvInstall (i : nat) (calls : list algo_call)
| EvArrive (i : nat)                        (* [count_down_and_wait] called *)
| EvPass (i : nat)                          (* [count_down_and_wait] returned *)
| EvSpawn (i k : nat)                       (* thread [i] constructed fiber [k] *)
| EvYield (k : nat)                         (* fiber [k] called [yield] *)
| EvReturn (k : nat)                        (* [bench] returned in fiber [k] *)
| EvJoin (i k : nat)                        (* [join] of fiber [k] returned *)
| EvClose (i : nat)                         (* thread [i] closed [blocker] *)
| EvPop (i : nat)                           (* thread [i] called [value_pop] *)
| EvThrow (i : nat)                         (* [value_pop] threw in thread [i] *)
| EvCatch (i : nat)                         (* [catch(...)] took the exception *)
| EvGet (i : nat)                           (* [get] of future [i] returned *)
| EvResult.                                 (* result written, line ended *)

#[global] Instance algo_call_eq_dec : EqDecision algo_call.
Proof. solve_decision. Defined.
#[global] Instance event_eq_dec : EqDecision event.
Proof. solve_decision. Defined.

Record state : Set := mkState {
  drv : dpc;
  wrk : list wpc;              (* [threads]: one entry per started thread *)
  arrived : Z;                 (* calls of [b.count_down_and_wait] so far;
                                  the barrier is used for one generation *)
  fib : list fpc;              (* [fibers] *)
  blocker : chan;
  starting_point : Z;
  stopping_point : Z;
  cout : list out_item;
  hist : list event            (* newest first *)
}.

Definition init : state :=
  mkState DHeader [] 0 [] Open 0 0 [] [].

Definition set_drv (d : dpc) (st : state) : state :=
  mkState d (wrk st) (arrived st) (fib st) (blocker st)
          (starting_point st) (stopping_point st) (cout st) (hist st).

Definition set_wrk (w : list wpc) (st : state) : state :=
  mkState (drv st) w (arrived st) (fib st) (blocker st)
          (starting_point st) (stopping_point st) (cout st) (hist st).

Definition set_pc (i : nat) (pc : wpc) (st : state) : state :=
  set_wrk (<[i := pc]> (wrk st)) st.

Definition set_arrived (a : Z) (st : state) : state :=
  mkState (drv st) (wrk st) a (fib st) (blocker st)
          (starting_point st) (stopping_point st) (cout st) (hist st).

Definition set_fib (f : list fpc) (st : state) : state :=
  mkState (drv st) (wrk st) (arrived st) f (blocker st)
          (starting_point st) (stopping_point st) (cout st) (hist st).

Definition set_blocker (c : chan) (st : state) : state :=
  mkState (drv st) (wrk st) (arrived st) (fib st) c
          (starting_point st) (stopping_point st) (cout st) (hist st).

Definition set_starting_point (t : Z) (st : state) : state :=
  mkState (drv st) (wrk st) (arrived st) (fib st) (blocker st)
          t (stopping_point st) (cout st) (hist st).

Definition set_stopping_point (t : Z) (st : state) : state :=
  mkState (drv st) (wrk st) (arrived st) (fib st) (blocker st)
          (starting_point st) t (cout st) (hist st).

Definition print (os : list out_item) (st : state) : state :=
  mkState (drv st) (wrk st) (arrived st) (fib st) (blocker st)
          (starting_point st) (stopping_point st) (cout st ++ os) (hist st).

Definition log (e : event) (st : state) : state :=
  mkState (drv st) (wrk st) (arrived st) (fib st) (blocker st)
          (starting_point st) (stopping_point st) (cout st) (e :: hist st).

(** Events in the order they happened. *)
Definition trace (st : state) : list event := rev (hist st).

(** ** One trial: the steps *)

(** [static_cast<unsigned int>(thread_number)], the size of the barrier. *)
Definition barrier_count (cfg : config) : Z := thread_number cfg mod 2 ^ 32.

(** The calling thread.  [t] is what [clk::now()] returns if it is called. *)
Definition driver_step (cfg : config) (t : Z) (st : state) : option state :=
  match drv st with
  | DHeader =>
      Some (log EvHeader (print (header cfg) (set_drv DSetup st)))
  | DSetup =>
      (* [boost::barrier] refuses a count of zero *)
      if barrier_count cfg =? 0 then Some (set_drv DThrown st)
      else Some (set_drv DClock0 st)
  | DClock0 =>
      Some (log (EvClock t) (set_starting_point t (set_drv (DLaunch 0) st)))
  | DLaunch k =>
      if Z.of_nat k <? thread_number cfg
      then Some (log (EvLaunch k)
                   (set_wrk (wrk st ++ [WInstall]) (set_drv (DLaunch (S k)) st)))
      else Some (set_drv (DGet 0) st)
  | DGet k =>
      match wrk st !! k with
      | None => Some (set_drv DClock1 st)
      | Some WDone => Some (log (EvGet k) (set_drv (DGet (S k)) st))
      | Some WFailed => Some (set_drv DThrown st)
      | Some _ => None
      end
  | DClock1 =>
      Some (log (EvClock t) (set_stopping_point t (set_drv DResult st)))
  | DResult =>
      Some (log EvResult
              (print (result_line cfg
                        (duration_count (starting_point st) (stopping_point st)))
                 (set_drv DDone st)))
  | DDone => None
  | DThrown => None
  end.

(** Worker thread [i] at [pc]. *)
Definition worker_step (cfg : config) (i : nat) (pc : wpc) (st : state)
  : option state :=
  match pc with
  | WInstall =>
      Some (log (EvInstall i (install_fiber_scheduler
                                (scheduler cfg) (thread_number cfg) (suspend cfg)))
              (set_pc i WBarrier st))
  | WBarrier =>
      Some (log (EvArrive i) (set_arrived (arrived st + 1) (set_pc i WWait st)))
  | WWait =>
      if barrier_count cfg <=? arrived st
      then Some (log (EvPass i) (set_pc i WBranch st))
      else None
  | WBranch =>
      if decide (i = 0%nat) then Some (set_pc i (WSpawn 0) st)
      else Some (log (EvPop i) (set_pc i WPop st))
  | WSpawn k =>
      if Z.of_nat k <? fiber_number cfg
      then Some (log (EvSpawn i k)
                   (set_fib (fib st ++ [FLoop (iterations cfg)])
                      (set_pc i (WSpawn (S k)) st)))
      else Some (set_pc i (WJoin 0) st)
  | WJoin k =>
      match fib st !! k with
      | None => Some (set_pc i WClose st)
      | Some FDone => Some (log (EvJoin i k) (set_pc i (WJoin (S k)) st))
      | Some _ => None
      end
  | WClose =>
      Some (log (EvClose i) (set_blocker Closed (set_pc i WDone st)))
  | WPop =>
      match blocker st with
      | Closed => Some (log (EvThrow i) (set_pc i WThrown st))
      | Open => None
      end
  | WThrown =>
      Some (log (EvCatch i) (set_pc i WDone st))
  | WDone => None
  | WFailed => None
  end.

(** A thread whose own context is suspended inside the fiber runtime runs
    ready fibers: the thread that called [join]; with a scheduler that
    shares or steals work, also a thread inside [value_pop]. *)
Definition hosts (cfg : config) (pc : wpc) : bool :=
  match pc with
  | WJoin _ => true
  | WPop => negb (bool_decide (scheduler cfg = round_robin))
  | _ => false
  end.

Definition host_available (cfg : config) (st : state) : bool :=
  existsb (hosts cfg) (wrk st).

(** Fiber [k] at [f] runs up to its next [yield] or to its end. *)
Definition fiber_step (k : nat) (f : fpc) (st : state) : option state :=
  match f with
  | FLoop c =>
      match bench_step c with
      | BReturn => Some (log (EvReturn k) (set_fib (<[k := FDone]> (fib st)) st))
      | BYield c' =>
          Some (log (EvYield k) (set_fib (<[k := FLoop c']> (fib st)) st))
      | BYieldUndef =>
          Some (log (EvYield k) (set_fib (<[k := FUndef]> (fib st)) st))
      end
  | FDone => None
  | FUndef => None
  end.

(** Who moves. *)
Inductive label : Set :=
| LDriver (t : Z)
| LWorker (i : nat)
| LFiber (k : nat).

Definition exec (cfg : config) (l : label) (st : state) : option state :=
  match l with
  | LDriver t => driver_step cfg t st
  | LWorker i =>
      match wrk st !! i with
      | Some pc => worker_step cfg i pc st
      | None => None
      end
  | LFiber k =>
      match fib st !! k with
      | Some f => if host_available cfg st then fiber_step k f st else None
      | None => None
      end
  end.

(** The states a trial can be in. *)
Inductive reachable (cfg : config) : state -> Prop :=
| reachable_init : reachable cfg init
| reachable_step st l st' :
    reachable cfg st -> exec cfg l st = Some st' -> reachable cfg st'.

(** [bench_mark] has returned. *)
Definition finished (st : state) : Prop := drv st = DDone.

(** [bench_mark] is past the loop of lines 105-106: every future has been
    collected. *)
Definition collected (st : state) : Prop :=
  drv st = DClock1 \/ drv st = DResult \/ drv st = DDone.


(** Running a given interleaving. *)
Fixpoint run (cfg : config) (ls : list label) (st : state) : option state :=
  match ls with
  | [] => Some st
  | l :: ls' =>
      match exec cfg l st with
      | Some st' => run cfg ls' st'
      | None => None
      end
  end.

(** A scheduler for experiments: the driver if it can move, else the first
    worker that can, else the first fiber that can; the clock shows the
    number of events so far. *)
Definition candidates (st : state) : list label :=
  LDriver (Z.of_nat (length (hist st)))
  :: map LWorker (seq 0 (length (wrk st)))
  ++ map LFiber (seq 0 (length (fib st))).

Fixpoint first_enabled (cfg : config) (ls : list label) (st : state)
  : option state :=
  match ls with
  | [] => None
  | l :: ls' =>
      match exec cfg l st with
      | Some st' => Some st'
      | None => first_enabled cfg ls' st
      end
  end.

Fixpoint auto_run (fuel : nat) (cfg : config) (st : state) : state :=
  match fuel with
  | O => st
  | S fuel' =>
      match first_enabled cfg (candidates st) st with
      | Some st' => auto_run fuel' cfg st'
      | None => st
      end
  end.

(** One call of [bench_mark] run under that scheduler, as far as the fuel
    goes; every other interleaving is covered by [reachable]. *)
Definition bench_mark (fuel : nat) (cfg : config) : state :=
  auto_run fuel cfg init.

(** ** [main]: the sweep *)

Definition fiber_numbers : list Z := [1; 3; 10; 30; 100; 300; 1000; 3000].

(** [{ 1e4, 1e5, 1e6 }] is a list of [double]. *)
Definition iteration_values : list float := [1e4; 1e5; 1e6]%float.

Definition schedulers : list sched := [round_robin; shared_work; work_stealing].

(** Lines 125-135: the calls of [bench_mark] of one turn of the innermost
    loop; [iterations] is converted from [double] to [int] at the call. *)
Definition scheduler_body (thread_number fiber_number : Z) (iterations : float)
  (scheduler : sched) : list config :=
  mkConfig thread_number fiber_number (int_of_double iterations) scheduler false
  :: (if decide (scheduler = work_stealing)
      then [mkConfig thread_number fiber_number (int_of_double iterations)
              scheduler true]
      else []).

Definition scheduler_loop (thread_number fiber_number : Z) (iterations : float)
  : list config :=
  flat_map (scheduler_body thread_number fiber_number iterations) schedulers.

Definition iterations_loop (thread_number fiber_number : Z) : list config :=
  flat_map (scheduler_loop thread_number fiber_number) iteration_values.

Definition fiber_loop (thread_number : Z) : list config :=
  flat_map (iterations_loop thread_number) fiber_numbers.

(** Lines 118-120.  The test compares an [int] with an [unsigned]: the
    [int] is converted. *)
Fixpoint thread_loop (fuel : nat) (thread_number limit : Z) : list config :=
  match fuel with
  | O => []
  | S fuel' =>
      if thread_number mod 2 ^ 32 <=? limit
      then fiber_loop thread_number ++ thread_loop fuel' (thread_number + 1) limit
      else []
  end.

(** The calls of [bench_mark] made by [main], in order, on a machine where
    [std::thread::hardware_concurrency()] is [hardware_concurrency]; the
    product is taken in [unsigned]. *)
Definition main (hardware_concurrency : Z) : list config :=
  let limit := (2 * hardware_concurrency) mod 2 ^ 32 in
  thread_loop (Z.to_nat limit) 1 limit.

(** The sweep in the words of the specification: the product of the
    thread counts, the task counts, the iteration counts and the
    schedulers, with both suspend options for the stealing scheduler and
    [false] for the others. *)
Definition thread_counts (hardware_parallelism : Z) : list Z :=
  map Z.of_nat (seq 1 (Z.to_nat (2 * hardware_parallelism))).

Definition iteration_counts : list Z := [10000; 100000; 1000000].

Definition non_stealing_schedulers : list sched := [round_robin; shared_work].
Definition stealing_schedulers : list sched := [work_stealing].
Definition suspend_options : list bool := [false; true].

Definition suspend_for (s : sched) : list bool :=
  if decide (s = work_stealing) then suspend_options else [false].

Definition sweep_spec (hardware_parallelism : Z) : list config :=
  flat_map (fun tn =>
  flat_map (fun fn =>
  flat_map (fun it =>
  flat_map (fun s =>
  map (fun susp => mkConfig tn fn it s susp) (suspend_for s))
  (non_stealing_schedulers ++ stealing_schedulers))
  iteration_counts)
  fiber_numbers)
  (thread_counts hardware_parallelism).

(** Position in the nested order: outer to inner. *)
Definition config_key (cfg : config) : list Z :=
  [ thread_number cfg; fiber_number cfg; iterations cfg;
    sched_ordinal (scheduler cfg); Z.b2z (suspend cfg) ].

Fixpoint lex_lt (a b : list Z) : Prop :=
  match a, b with
  | x :: a', y :: b' => x < y \/ (x = y /\ lex_lt a' b')
  | _, _ => False
  end.

Definition nested_before (c1 c2 : config) : Prop :=
  lex_lt (config_key c1) (config_key c2).

(** ** Vocabulary for the statements *)

(** How far a worker is. *)
Definition installed (pc : wpc) : bool :=
  match pc with WInstall => false | _ => true end.

Definition at_barrier (pc : wpc) : bool :=
  match pc with WInstall | WBarrier => false | _ => true end.

Definition passed (pc : wpc) : bool :=
  match pc with WInstall | WBarrier | WWait => false | _ => true end.

(** Places only the branch [i == 0] reaches, and only the [else] branch. *)
Definition coordinating (pc : wpc) : bool :=
  match pc with WSpawn _ | WJoin _ | WClose => true | _ => false end.

Definition idling (pc : wpc) : bool :=
  match pc with WPop | WThrown => true | _ => false end.

Definition b2n (b : bool) : nat := if b then 1%nat else 0%nat.

(** Counting events. *)
Fixpoint occurrences (p : event -> bool) (h : list event) : nat :=
  match h with
  | [] => 0%nat
  | e :: h' => (b2n (p e) + occurrences p h')%nat
  end.

Definition is_install (i : nat) (e : event) : bool :=
  match e with EvInstall j _ => bool_decide (j = i) | _ => false end.

Definition is_yield (k : nat) (e : event) : bool :=
  match e with EvYield j => bool_decide (j = k) | _ => false end.

Definition is_close (e : event) : bool :=
  match e with EvClose _ => true | _ => false end.

Definition is_result (e : event) : bool :=
  match e with EvResult => true | _ => false end.

(** How many fibers thread 0 has joined, from where it is. *)
Definition joined (st : state) : nat :=
  match wrk st !! 0%nat with
  | Some (WJoin k) => k
  | Some WClose | Some WDone => length (fib st)
  | _ => 0%nat
  end.

Definition popped (pc : wpc) : bool :=
  match pc with WPop | WThrown | WDone => true | _ => false end.

Definition thrown (pc : wpc) : bool :=
  match pc with WThrown | WDone => true | _ => false end.

(** The values [clk::now()] has returned, newest first. *)
Fixpoint clock_readings (h : list event) : list Z :=
  match h with
  | [] => []
  | EvClock t :: h' => t :: clock_readings h'
  | _ :: h' => clock_readings h'
  end.

(** What must have happened before an event. *)
Definition event_ok (cfg : config) (e : event) (before : list event) : Prop :=
  match e with
  | EvHeader => before = []
  | EvClock t => In EvHeader before
  | EvLaunch i => length (clock_readings before) = 1%nat
  | EvInstall i calls =>
      calls = install_fiber_scheduler
                (scheduler cfg) (thread_number cfg) (suspend cfg) /\
      In (EvLaunch i) before /\
      occurrences (is_install i) before = 0%nat
  | EvArrive i => occurrences (is_install i) before = 1%nat
  | EvPass i =>
      In (EvArrive i) before /\
      (int_range (thread_number cfg) ->
       forall j, Z.of_nat j < thread_number cfg -> In (EvArrive j) before)
  | EvSpawn i k => i = 0%nat /\ In (EvPass 0) before
  | EvYield k => In (EvSpawn 0 k) before
  | EvReturn k => Z.of_nat (occurrences (is_yield k) before) = iterations cfg
  | EvJoin i k => i = 0%nat /\ In (EvReturn k) before
  | EvClose i =>
      i = 0%nat /\ occurrences is_close before = 0%nat /\
      forall k, Z.of_nat k < fiber_number cfg -> In (EvJoin 0 k) before
  | EvPop i => i <> 0%nat /\ In (EvPass i) before
  | EvThrow i => i <> 0%nat /\ In (EvPop i) before /\ In (EvClose 0) before
  | EvCatch i => In (EvThrow i) before
  | EvGet i =>
      if decide (i = 0%nat) then In (EvClose 0) before
      else In (EvCatch i) before
  | EvResult =>
      length (clock_readings before) = 2%nat /\
      forall i, Z.of_nat i < thread_number cfg -> In (EvGet i) before
  end.

(** ** A bound on what is left to do *)





(** ** Deciding the nested order *)

(** A configuration of the sweep, moved to another thread count. *)
Definition with_thread_number (tn : Z) (c : config) : config :=
  mkConfig tn (fiber_number c) (iterations c) (scheduler c) (suspend c).

(** The order inside one turn of the thread loop. *)
Definition inner_before (c1 c2 : config) : Prop :=
  lex_lt (tail (config_key c1)) (tail (config_key c2)).

#[global] Instance lex_lt_dec a b : Decision (lex_lt a b).
Proof.
  revert b. induction a as [|x a IH]; intros [|y b]; simpl;
    try (right; tauto).
  destruct (decide (x < y)); [left; tauto|].
  destruct (decide (x = y)); [|right; tauto].
  destruct (IH b); [left; tauto|right; tauto].
Defined.

#[global] Instance inner_before_dec c1 c2 : Decision (inner_before c1 c2).
Proof. unfold inner_before. apply _. Defined.

(** ** Invariants of a trial *)

(** The vector [threads] holds the threads started so far; no thread is
    started after the launch loop, none outside it. *)
Definition shape_inv (cfg : config) (st : state) : Prop :=
  (length (wrk st) <= Z.to_nat (thread_number cfg))%nat /\
  match drv st with
  | DHeader | DSetup | DThrown => length (wrk st) = 0%nat /\ arrived st = 0
  | DClock0 => length (wrk st) = 0%nat /\ barrier_count cfg <> 0
  | DLaunch k => length (wrk st) = k /\ barrier_count cfg <> 0
  | _ => length (wrk st) = Z.to_nat (thread_number cfg) /\ barrier_count cfg <> 0
  end /\
  (forall i pc, wrk st !! i = Some pc -> pc <> WFailed) /\
  (forall i pc, wrk st !! i = Some pc -> coordinating pc = true -> i = 0%nat) /\
  (forall i pc, wrk st !! i = Some pc -> idling pc = true -> i <> 0%nat).

(** [arrived] counts the workers that have called [count_down_and_wait];
    nobody is past the barrier before the count is complete. *)
Definition barrier_inv (cfg : config) (st : state) : Prop :=
  arrived st = Z.of_nat (sum_list_with (fun pc => b2n (at_barrier pc)) (wrk st)) /\
  (forall i pc, wrk st !! i = Some pc -> passed pc = true ->
                barrier_count cfg <= arrived st).

(** The fleet belongs to thread 0: the vector [fibers] grows while it
    constructs, is complete while it joins, and [blocker] is closed only
    when it has finished. *)
Definition fleet_inv (cfg : config) (st : state) : Prop :=
  (length (fib st) <= Z.to_nat (fiber_number cfg))%nat /\
  match wrk st !! 0%nat with
  | Some (WSpawn k) => length (fib st) = k /\ blocker st = Open
  | Some (WJoin k) =>
      length (fib st) = Z.to_nat (fiber_number cfg) /\ blocker st = Open /\
      (k <= length (fib st))%nat /\
      (forall j, (j < k)%nat -> fib st !! j = Some FDone)
  | Some WClose =>
      length (fib st) = Z.to_nat (fiber_number cfg) /\ blocker st = Open /\
      (forall j, (j < length (fib st))%nat -> fib st !! j = Some FDone)
  | Some WDone =>
      length (fib st) = Z.to_nat (fiber_number cfg) /\ blocker st = Closed /\
      (forall j, (j < length (fib st))%nat -> fib st !! j = Some FDone)
  | _ => length (fib st) = 0%nat /\ blocker st = Open
  end.

(** The countdown of a fiber and the yields it has made add up to
    [iterations]. *)
Definition fiber_inv (cfg : config) (st : state) : Prop :=
  (forall k c, fib st !! k = Some (FLoop c) ->
     Z.of_nat (occurrences (is_yield k) (hist st)) = iterations cfg - c /\
     (0 <= iterations cfg -> 0 <= c)) /\
  (forall k, fib st !! k = Some FDone ->
     Z.of_nat (occurrences (is_yield k) (hist st)) = iterations cfg /\
     In (EvReturn k) (hist st)) /\
  (forall k, fib st !! k = Some FUndef -> iterations cfg < 0) /\
  (forall k, fib st !! k = None -> occurrences (is_yield k) (hist st) = 0%nat) /\
  (forall k, (k < length (fib st))%nat -> In (EvSpawn 0 k) (hist st)).

(** The driver: the header comes first, the clock is read once before the
    threads are started and once after all futures are collected, and
    [std::cout] holds the header, then the result. *)
Definition driver_link (cfg : config) (st : state) : Prop :=
  (drv st = DHeader -> hist st = []) /\
  (drv st <> DHeader -> In EvHeader (hist st)) /\
  clock_readings (hist st) =
    match drv st with
    | DHeader | DSetup | DClock0 | DThrown => []
    | DLaunch _ | DGet _ | DClock1 => [starting_point st]
    | DResult | DDone => [stopping_point st; starting_point st]
    end /\
  cout st =
    match drv st with
    | DHeader => []
    | DDone => header cfg ++
               result_line cfg
                 (duration_count (starting_point st) (stopping_point st))
    | _ => header cfg
    end /\
  occurrences is_result (hist st) = b2n (bool_decide (drv st = DDone)) /\
  (forall i, (i < length (wrk st))%nat -> In (EvLaunch i) (hist st)) /\
  (forall i, (i < match drv st with
                  | DGet k => k
                  | DClock1 | DResult | DDone => length (wrk st)
                  | _ => 0
                  end)%nat ->
             In (EvGet i) (hist st) /\ wrk st !! i = Some WDone).

(** The fleet: [blocker] is closed by one [EvClose], and every fiber that
    thread 0 has gone past in its join loop has an [EvJoin]. *)
Definition fleet_link (st : state) : Prop :=
  occurrences is_close (hist st) = b2n (bool_decide (blocker st = Closed)) /\
  (blocker st = Closed -> In (EvClose 0) (hist st)) /\
  (forall k, (k < joined st)%nat -> In (EvJoin 0 k) (hist st)).

(** The workers: what each has done so far is in the history. *)
Definition worker_link (st : state) : Prop :=
  (forall i, wrk st !! i = None -> occurrences (is_install i) (hist st) = 0%nat) /\
  (forall i pc, wrk st !! i = Some pc ->
     occurrences (is_install i) (hist st) = b2n (installed pc) /\
     (at_barrier pc = true -> In (EvArrive i) (hist st)) /\
     (passed pc = true -> In (EvPass i) (hist st)) /\
     (i <> 0%nat -> popped pc = true -> In (EvPop i) (hist st)) /\
     (i <> 0%nat -> thrown pc = true -> In (EvThrow i) (hist st)) /\
     (i <> 0%nat -> pc = WDone -> In (EvCatch i) (hist st))) /\
  (forall i, In (EvPop i) (hist st) ->
     i <> 0%nat /\ (i < length (wrk st))%nat).

(** ** Example trials *)

(** A trial with two threads, two fibers and three iterations under the
    shared-work scheduler, run to its end by [bench_mark]. *)
Definition cfg_small : config := mkConfig 2 2 3 shared_work false.
Definition st_small : state := bench_mark 64 cfg_small.



(** ** Vocabulary for further properties *)


(** Every thread below [thread_number] has installed its scheduler, once,
    and has called [count_down_and_wait]. *)
Definition all_ready (cfg : config) (h : list event) : Prop :=
  forall j, Z.of_nat j < thread_number cfg ->
            occurrences (is_install j) h = 1%nat /\ In (EvArrive j) h.

(** A configuration of the sweep: what [main] passes to [bench_mark]. *)
Definition sweep_config (c : config) : Prop :=
  1 <= fiber_number c <= 3000 /\ 1 <= iterations c <= 1000000.

#[global] Instance sweep_config_dec c : Decision (sweep_config c).
Proof. unfold sweep_config. apply _. Defined.





Definition is_any_install (e : event) : bool :=
  match e with EvInstall _ _ => true | _ => false end.

(** A [double] that is an infinity or a NaN. *)
Definition not_finite (f : float) : bool :=
  match Prim2SF f with
  | S754_infinity _ | S754_nan => true
  | _ => false
  end.

Definition cfg_negative : config := mkConfig 2 1 (-1) work_stealing true.
Definition cfg_empty : config := mkConfig 2 0 5 shared_work false.

(** * Proofs *)

(** ** Lists updated in place *)

Lemma sum_list_with_insert {A} (f : A -> nat) (l : list A) i x y :
  l !! i = Some y ->
  (sum_list_with f (<[i := x]> l) + f y = sum_list_with f l + f x)%nat.
Proof.
  revert i; induction l as [|a l IH]; intros [|i] Hi; simplify_eq/=.
  - lia.
  - specialize (IH _ Hi). lia.
Qed.

Lemma sum_list_with_snoc {A} (f : A -> nat) (l : list A) x :
  sum_list_with f (l ++ [x]) = (sum_list_with f l + f x)%nat.
Proof. rewrite sum_list_with_app. simpl. lia. Qed.

Lemma sum_list_with_le_length {A} (f : A -> bool) (l : list A) :
  (sum_list_with (fun x => b2n (f x)) l <= length l)%nat.
Proof. induction l as [|a l IH]; simpl; [lia|]. destruct (f a); simpl; lia. Qed.

Lemma sum_list_with_full {A} (f : A -> bool) (l : list A) i x :
  sum_list_with (fun x => b2n (f x)) l = length l ->
  l !! i = Some x -> f x = true.
Proof.
  revert i; induction l as [|a l IH]; intros [|i] Hs Hi; simplify_eq/=.
  - pose proof (sum_list_with_le_length f l).
    destruct (f x); simpl in *; [done | lia].
  - pose proof (sum_list_with_le_length f l).
    apply (IH i); [|done]. destruct (f a); simpl in *; lia.
Qed.

Lemma lookup_snoc_inv {A} (l : list A) x i y :
  (l ++ [x]) !! i = Some y ->
  l !! i = Some y \/ (i = length l /\ y = x).
Proof.
  intros H. destruct (decide (i < length l)%nat).
  - left. by rewrite lookup_app_l in H.
  - right. rewrite lookup_app_r in H by lia.
    destruct (i - length l)%nat eqn:E; simplify_eq/=.
    split; [lia|done].
Qed.

Lemma occurrences_app p h1 h2 :
  occurrences p (h1 ++ h2) = (occurrences p h1 + occurrences p h2)%nat.
Proof. induction h1 as [|e h1 IH]; simpl; [done|]. rewrite IH. lia. Qed.

Lemma occurrences_pos p h e :
  In e h -> p e = true -> (0 < occurrences p h)%nat.
Proof.
  induction h as [|a h IH]; simpl; [done|].
  intros [->|Hin] Hp; [rewrite Hp; simpl; lia|].
  specialize (IH Hin Hp). lia.
Qed.


(** ** Case analysis of a step *)

Inductive lookup_bound {P : Prop} (H : P) : Prop := lookup_bound_seen.

Ltac exec_inv H :=
  match type of H with exec _ ?l _ = Some _ => try (is_var l; destruct l) end;
  cbn [exec] in H;
  unfold driver_step, worker_step, fiber_step, bench_step in H;
  repeat match type of H with
         | context [match ?x with _ => _ end] => destruct x eqn:?
         end;
  simplify_eq;
  repeat match goal with
         | Hb : (if ?b then _ else _) = _ |- _ => destruct b eqn:?; simplify_eq
         end.

Ltac look :=
  repeat match goal with
    | H : <[?i := _]> _ !! ?j = Some _ |- _ =>
        destruct (decide (i = j));
        [ subst; rewrite list_lookup_insert_eq in H
            by eauto using lookup_lt_Some
        | rewrite list_lookup_insert_ne in H by done ]
    | H : (_ ++ [_]) !! _ = Some _ |- _ =>
        apply lookup_snoc_inv in H; destruct H as [H | [? ?]]; simplify_eq
    end.

Ltac bools :=
  rewrite ?Z.eqb_eq, ?Z.eqb_neq, ?Z.ltb_lt, ?Z.ltb_ge, ?Z.leb_le, ?Z.leb_gt in *.

Ltac zero :=
  match goal with
  | H : wrk ?st !! ?i = Some _ |- context [<[?i := _]> (wrk ?st) !! 0%nat] =>
      destruct (decide (i = 0%nat));
      [ subst; rewrite list_lookup_insert_eq by eauto using lookup_lt_Some
      | first [ done | rewrite list_lookup_insert_ne by done ] ]
  end.

Ltac bounds :=
  repeat match goal with
    | H : _ !! _ = Some _ |- _ =>
        lazymatch goal with
        | _ : lookup_bound H |- _ => fail
        | _ => pose proof (lookup_lt_Some _ _ _ H);
               assert (lookup_bound H) by constructor
        end
    | H : _ !! _ = None |- _ =>
        lazymatch goal with
        | _ : lookup_bound H |- _ => fail
        | _ => pose proof (proj1 (lookup_ge_None _ _) H);
               assert (lookup_bound H) by constructor
        end
    end;
  repeat match goal with H : lookup_bound _ |- _ => clear H end.

Lemma reachable_run cfg ls st st' :
  reachable cfg st -> run cfg ls st = Some st' -> reachable cfg st'.
Proof.
  revert st; induction ls as [|l ls IH]; intros st Hr H; simpl in H.
  - by simplify_eq.
  - destruct (exec cfg l st) as [st1|] eqn:E; [|done].
    eapply IH; [|done]. by eapply reachable_step.
Qed.

Lemma first_enabled_exec cfg ls st st' :
  first_enabled cfg ls st = Some st' -> exists l, exec cfg l st = Some st'.
Proof.
  induction ls as [|l ls IH]; simpl; [done|].
  destruct (exec cfg l st) eqn:E; [|done]. intros; simplify_eq. eauto.
Qed.

Lemma reachable_auto_run cfg fuel st :
  reachable cfg st -> reachable cfg (auto_run fuel cfg st).
Proof.
  revert st; induction fuel as [|fuel IH]; intros st Hr; cbn [auto_run]; [done|].
  destruct (first_enabled cfg (candidates st) st) as [st'|] eqn:E; [|done].
  apply IH. destruct (first_enabled_exec _ _ _ _ E) as [l Hl].
  by eapply reachable_step.
Qed.

Lemma reachable_bench_mark cfg fuel : reachable cfg (bench_mark fuel cfg).
Proof. apply reachable_auto_run, reachable_init. Qed.

(** ** Invariants of the threads *)

Lemma shape_invariant cfg s : reachable cfg s -> shape_inv cfg s.
Proof.
  induction 1 as [|st l st' Hr IH Hex].
  { unfold shape_inv; simpl. split_and!; try done; lia. }
  destruct l as [t|i|k].
  - exec_inv Hex; destruct IH as (Hlen & Hd & Hf & Hc & Hi);
      unfold shape_inv; simpl; rewrite ?length_app; simpl.
    all: match goal with H : drv _ = _ |- _ => rewrite H in Hd end.
    all: destruct Hd as [Hd1 Hd2]; bools.
    all: try (exfalso; eapply Hf; eauto; done).
    all: split_and!; try done; try lia.
    all: intros j pc' Hj; look; simplify_eq/=; eauto; done.
  - exec_inv Hex; destruct IH as (Hlen & Hd & Hf & Hc & Hi);
      unfold shape_inv; simpl; rewrite ?length_insert.
    all: bounds.
    all: split_and!; try done.
    all: try (destruct (drv st); destruct Hd; split; (done || lia)).
    all: intros j pc' Hj; look; simplify_eq/=; eauto; done.
  - exec_inv Hex; exact IH.
Qed.

Ltac sums :=
  try match goal with
    | H : ?l !! ?i = Some ?y |- context [sum_list_with ?f (<[?i := ?x]> ?l)] =>
        pose proof (sum_list_with_insert f l i x y H)
    end;
  rewrite ?sum_list_with_snoc in *.

Lemma barrier_invariant cfg s : reachable cfg s -> barrier_inv cfg s.
Proof.
  induction 1 as [|st l st' Hr IH Hex].
  { split; simpl; [done|]. intros ? ?; by rewrite lookup_nil. }
  exec_inv Hex; destruct IH as (Ha & Hp); unfold barrier_inv; simpl.
  all: split; [try (sums; simpl in *; lia)|].
  all: try (intros j pc' Hj Hpc'; look; simplify_eq/=; try lia; eauto).
  all: try (specialize (Hp _ _ Hj Hpc'); lia).
Qed.

Lemma barrier_count_int cfg :
  int_range (thread_number cfg) -> 0 < thread_number cfg ->
  barrier_count cfg = thread_number cfg.
Proof.
  unfold int_range, INT_MIN, INT_MAX, barrier_count. intros ? ?.
  apply Z.mod_small. lia.
Qed.

(** Once the barrier is complete, every thread has been started and has
    called [count_down_and_wait]. *)
Lemma barrier_full cfg st i pc :
  int_range (thread_number cfg) -> reachable cfg st ->
  wrk st !! i = Some pc -> barrier_count cfg <= arrived st ->
  length (wrk st) = Z.to_nat (thread_number cfg) /\
  (forall j pc', wrk st !! j = Some pc' -> at_barrier pc' = true).
Proof.
  intros Hint Hr Hi Hb.
  destruct (shape_invariant _ _ Hr) as (Hlen & _).
  destruct (barrier_invariant _ _ Hr) as (Ha & _).
  pose proof (sum_list_with_le_length at_barrier (wrk st)) as Hle.
  pose proof (lookup_lt_Some _ _ _ Hi) as Hlt.
  rewrite barrier_count_int in Hb by (done || lia).
  assert (sum_list_with (fun pc => b2n (at_barrier pc)) (wrk st)
          = length (wrk st)) as Hfull by lia.
  split; [lia|]. intros j pc' Hj.
  eapply (sum_list_with_full at_barrier); eauto.
Qed.

Lemma fleet_invariant cfg s : reachable cfg s -> fleet_inv cfg s.
Proof.
  induction 1 as [|st l st' Hr IH Hex].
  { unfold fleet_inv; simpl. split; [lia|done]. }
  destruct (shape_invariant _ _ Hr) as (_ & _ & _ & Hc & Hi).
  destruct l as [t|i|k].
  - exec_inv Hex; destruct IH as (Hlen & Hw); unfold fleet_inv; simpl.
    all: try (split; assumption).
    destruct (wrk st) as [|pc0 w0]; simpl in *; split; assumption.
  - exec_inv Hex; destruct IH as (Hlen & Hw); unfold fleet_inv; simpl;
      rewrite ?length_app; simpl.
    all: zero.
    all: try match goal with
           | H : wrk _ !! 0%nat = Some _ |- _ => rewrite H in Hw; simpl in Hw
           | H : wrk _ !! ?i = Some ?pc, Hn : ?i <> 0%nat |- _ =>
               try (exfalso; apply Hn, (Hc _ _ H); reflexivity)
           end.
    all: try (split; assumption).
    all: try match goal with
           | H : wrk _ !! 0%nat = Some ?pc |- _ =>
               assert (idling pc = true) as Hidle by reflexivity;
               exfalso; by apply (Hi _ _ H Hidle)
           end.
    all: bounds; destruct_and?; split_and!; try done; try lia.
    all: intros j Hj; destruct (decide (j = k)); subst; eauto with lia.
  - exec_inv Hex; destruct IH as (Hlen & Hw); unfold fleet_inv; simpl;
      rewrite ?length_insert.
    all: split; [done|].
    all: destruct (wrk st !! 0%nat) as [[]|]; try done.
    all: destruct_and?; split_and!; try done.
    all: intros j Hj; rewrite list_lookup_insert_ne; [by eauto|]; intros ->.
    all: match goal with
         | H : forall j, _ -> fib _ !! j = Some FDone |- _ =>
             specialize (H _ Hj); congruence
         end.
Qed.

Lemma fiber_invariant cfg s : reachable cfg s -> fiber_inv cfg s.
Proof.
  induction 1 as [|st l st' Hr IH Hex].
  { repeat split; simpl in *; try done; try lia. }
  destruct (shape_invariant _ _ Hr) as (_ & _ & _ & Hc & _).
  destruct (fleet_invariant _ _ Hr) as (_ & Hw).
  exec_inv Hex; destruct IH as (HL & HD & HU & HN & HS);
    unfold fiber_inv; simpl; try done.
  all: try match goal with
         | H : wrk _ !! ?i = Some (WSpawn _) |- _ =>
             assert (i = 0%nat) as -> by (by eapply Hc);
             rewrite H in Hw; destruct Hw as [Hw _]
         end.
  all: bools.
  all: split_and!.
  all: try (intros j c' Hj); try (intros j Hj).
  all: try match type of Hj with
         | _ = None =>
             apply lookup_ge_None in Hj;
             rewrite ?length_app, ?length_insert in Hj; simpl in Hj;
             apply lookup_ge_None in Hj
         end.
  all: rewrite ?length_app, ?length_insert in *; simpl in *.
  all: look; simplify_eq/=; try case_bool_decide; simplify_eq/=.
  all: try (edestruct HL as [? ?]; [eassumption|]).
  all: try (edestruct HD as [? ?]; [eassumption|]).
  all: try (split; [try lia|try lia; try (by left); try (right; by eauto)]).
  all: try (by eauto).
  all: try (by bounds; unfold INT_MIN in *; lia).
  all: try (right; by eauto).
  all: try (rewrite HN by (apply lookup_ge_None; lia); lia).
  all: try (destruct (decide (j = length (fib st))); subst;
            [by left | right; apply HS; lia]).
  apply HN, lookup_ge_None. apply lookup_ge_None in Hj.
  rewrite length_app in Hj. simpl in Hj. lia.
Qed.

(** ** What the history records *)

Lemma driver_link_invariant cfg s : reachable cfg s -> driver_link cfg s.
Proof.
  induction 1 as [|st l st' Hr IH Hex].
  { unfold driver_link; simpl. split_and!; try done; intros; lia. }
  destruct (shape_invariant _ _ Hr) as (_ & Hd & Hf & _).
  destruct l as [t|i|k].
  - exec_inv Hex; destruct IH as (H1 & H2 & H3 & H4 & H5 & H6 & H7);
      unfold driver_link; simpl; rewrite ?length_app; simpl.
    all: match goal with H : drv _ = _ |- _ => rewrite H in * end.
    all: try (exfalso; eapply Hf; eauto; done).
    all: split_and!; try done; try (by auto).
    all: try (rewrite H4; done).
    all: try (by rewrite H3).
    all: intros j Hj; try lia; bounds.
    all: try (destruct (H7 j) as [? ?]; [lia|]; split; [by right|done]).
    + destruct Hd as [<- _]. destruct (decide (j = length (wrk st))) as [->|?];
        [by left | right; apply H6; lia].
    + destruct (decide (j = k)) as [->|?]; [split; [by left|done]|].
      destruct (H7 j) as [? ?]; [lia|]. split; [by right|done].
    + apply H7. lia.
  - exec_inv Hex; destruct IH as (H1 & H2 & H3 & H4 & H5 & H6 & H7);
      unfold driver_link; simpl; rewrite ?length_insert.
    all: bounds.
    all: split_and!; try done; try (by auto).
    all: try (intros Hh; rewrite Hh in Hd; destruct Hd; lia).
    all: try (intros j Hj; right; by apply H6).
    all: intros j Hj; destruct (H7 j Hj) as [? Hw]; (split; [try right; done|]).
    all: rewrite list_lookup_insert_ne; [done|]; intros ?; simplify_eq.
  - exec_inv Hex; destruct IH as (H1 & H2 & H3 & H4 & H5 & H6 & H7);
      unfold driver_link; simpl.
    all: bounds.
    all: split_and!; try done; try (by auto).
    all: try (intros Hh; specialize (H1 Hh);
              destruct (fiber_invariant _ _ Hr) as (_ & _ & _ & _ & HS);
              specialize (HS _ ltac:(eassumption)); rewrite H1 in HS; done).
    all: try (intros j Hj; right; by apply H6).
    all: intros j Hj; destruct (H7 j Hj) as [? Hw]; (split; [by right|done]).
Qed.

Lemma fleet_link_invariant cfg s : reachable cfg s -> fleet_link s.
Proof.
  induction 1 as [|st l st' Hr IH Hex].
  { unfold fleet_link, joined; simpl. split_and!; try done; intros; lia. }
  destruct (shape_invariant _ _ Hr) as (_ & _ & _ & Hc & Hi).
  destruct (fleet_invariant _ _ Hr) as (_ & Hw).
  destruct IH as (H1 & H2 & H3).
  destruct l as [t|i|k].
  - exec_inv Hex; unfold fleet_link, joined in *; simpl.
    all: split_and!; try done; try (by auto).
    all: try (intros j Hj; right; by apply H3).
    intros j Hj. right. apply H3.
    destruct (wrk st) as [|pc0 w0]; simpl in *; [lia|done].
  - exec_inv Hex; unfold fleet_link, joined in *; simpl.
    all: try zero.
    all: try match goal with
           | H : wrk _ !! 0%nat = Some _ |- _ =>
               rewrite H in Hw, H3; simpl in Hw, H3
           | H : wrk _ !! ?i = Some ?pc, Hn : ?i <> 0%nat |- _ =>
               try (exfalso; apply Hn, (Hc _ _ H); reflexivity)
           end.
    all: destruct_and?; bounds.
    all: split_and!; try done; try (by auto).
    all: try (intros j Hj; right; apply H3; lia).
    all: try (intros j Hj; lia).
    + intros j Hj. destruct (decide (j = k)) as [->|?]; [by left|].
      right. apply H3. lia.
    + intros j Hj. apply H3. lia.
    + rewrite H1, H4. done.
    + rewrite Heqc. exact H1.
  - exec_inv Hex; unfold fleet_link, joined in *; simpl;
      rewrite ?length_insert.
    all: split_and!; try done; try (by auto).
    all: intros j Hj; right; by apply H3.
Qed.

Lemma worker_link_invariant cfg s : reachable cfg s -> worker_link s.
Proof.
  induction 1 as [|st l st' Hr IH Hex].
  { unfold worker_link; simpl. split_and!; done. }
  destruct (shape_invariant _ _ Hr) as (_ & _ & _ & Hc & Hi).
  destruct IH as (H1 & H2 & H3).
  destruct l as [t|i|k].
  - exec_inv Hex; unfold worker_link in *; simpl; rewrite ?length_app.
    all: split_and!; try done.
    all: try (intros j pc Hj; destruct (H2 _ _ Hj) as (? & ? & ? & ? & ? & ?);
              split_and!; auto; done).
    all: try (intros j [|Hj]; [done|]; destruct (H3 _ Hj); split; [done|lia]).
    + intros j Hj. apply H1. apply lookup_ge_None in Hj.
      rewrite length_app in Hj. apply lookup_ge_None. lia.
    + intros j pc Hj. look.
      * destruct (H2 _ _ Hj) as (? & ? & ? & ? & ? & ?). split_and!; auto.
      * simpl. split_and!; try done. apply H1, lookup_ge_None. lia.
  - exec_inv Hex; unfold worker_link in *; simpl; rewrite ?length_insert.
    all: bounds.
    all: split_and!.
    all: try (intros j Hj; apply lookup_ge_None in Hj;
              rewrite length_insert in Hj; apply lookup_ge_None in Hj;
              specialize (H1 _ Hj); try case_bool_decide; simplify_eq;
              simpl; done).
    all: try (intros j [|Hj]; simplify_eq; try done;
              destruct (H3 _ Hj); done).
    all: try (intros j pc' Hj; look; simplify_eq/=;
         try case_bool_decide; simplify_eq/=).
    all: try (destruct (H2 _ _ Hj) as (? & ? & ? & ? & ? & ?);
              split_and!; auto; done).
    all: try (destruct (H2 _ _ ltac:(eassumption)) as (? & ? & ? & ? & ? & ?);
              simpl in *; split_and!; auto; try done; lia).
    all: try exact H3.
    assert (j = 0%nat) as -> by (by eapply Hc).
    destruct (H2 _ _ Heqo) as (? & ? & ? & ? & ? & ?).
    simpl in *; split_and!; auto; done.
  - exec_inv Hex; unfold worker_link in *; simpl.
    all: split_and!; try done.
    all: try (intros j pc Hj; destruct (H2 _ _ Hj) as (? & ? & ? & ? & ? & ?);
              split_and!; auto; done).
    all: intros j [|Hj]; [done|]; destruct (H3 _ Hj); split; [done|lia].
Qed.

(** ** The order of events *)

(** A step adds at most one event, and what that event needs has
    happened. *)
Lemma step_event_ok cfg st l st' :
  reachable cfg st -> exec cfg l st = Some st' ->
  hist st' = hist st \/
  exists e, hist st' = e :: hist st /\ event_ok cfg e (hist st).
Proof.
  intros Hr Hex.
  destruct (shape_invariant _ _ Hr) as (Hlen & Hd & Hf & Hc & Hi).
  pose proof (fleet_invariant _ _ Hr) as (_ & Hw).
  pose proof (fiber_invariant _ _ Hr) as (FL & FD & _ & _ & FS).
  pose proof (driver_link_invariant _ _ Hr) as (D1 & D2 & D3 & _ & _ & D6 & D7).
  pose proof (fleet_link_invariant _ _ Hr) as (C1 & C2 & C3).
  pose proof (worker_link_invariant _ _ Hr) as (W1 & W2 & _).
  destruct l as [t|i|k].
  - exec_inv Hex; simpl; try (by left); right; eexists; (split; [done|]);
      simpl.
    all: try match goal with H : drv _ = _ |- _ => rewrite H in * end.
    all: try (by auto).
    + by rewrite D3.
    + destruct (decide (k = 0%nat)) as [->|Hk].
      * rewrite Heqo in Hw. destruct Hw as (_ & ? & _). auto.
      * destruct (W2 _ _ Heqo) as (_ & _ & _ & _ & _ & ?). auto.
    + rewrite D3. split; [done|]. intros j Hj. apply D7. destruct Hd. lia.
  - exec_inv Hex; simpl; try (by left); right; eexists; (split; [done|]);
      simpl.
    all: try match goal with
           | H : wrk _ !! _ = Some ?pc |- _ =>
               pose proof (lookup_lt_Some _ _ _ H);
               destruct (W2 _ _ H) as (Wa & Wb & Wc & Wd & We & Wf);
               simpl in Wa, Wb, Wc, Wd, We, Wf;
               try (assert (coordinating pc = true) as Hco by reflexivity;
                    pose proof (Hc _ _ H Hco); subst);
               try (assert (idling pc = true) as Hid by reflexivity;
                    pose proof (Hi _ _ H Hid))
           end.
    all: try match goal with
           | H : wrk _ !! 0%nat = Some _ |- _ =>
               rewrite H in Hw; unfold joined in C3; rewrite H in C3;
               simpl in Hw, C3
           end.
    all: split_and?; try done; try (by auto).
    + intros Hrange j Hj. bools.
      destruct (barrier_full cfg st i WWait Hrange Hr Heqo Heqb) as [Hl Hall].
      destruct (lookup_lt_is_Some_2 (wrk st) j) as [pc' Hpc']; [lia|].
      destruct (W2 _ _ Hpc') as (_ & Hb & _). eauto.
    + by destruct (FD _ Heqo0).
    + destruct Hw as (_ & Hop & _). by rewrite C1, Hop.
    + intros j Hj. apply C3. destruct Hw as (Hw & _). lia.
  - exec_inv Hex; simpl; right; eexists; (split; [done|]); simpl.
    all: bounds; bools; auto.
    destruct (FL _ _ Heqo). lia.
Qed.

(** Every event of a reachable history has what it needs before it. *)
Lemma history_ok cfg st :
  reachable cfg st ->
  forall post e pre, hist st = post ++ e :: pre -> event_ok cfg e pre.
Proof.
  induction 1 as [|st l st' Hr IH Hex]; intros post e pre Hh.
  { simpl in Hh. by destruct post. }
  destruct (step_event_ok _ _ _ _ Hr Hex) as [Heq|(e0 & Heq & Hok)];
    rewrite Heq in Hh; [eauto|].
  destruct post as [|e1 post]; simplify_eq/=; eauto.
Qed.

(** ** Progress and termination *)












(** ** The end of a trial *)

(** When every future has been collected every worker has returned, every
    fiber of the fleet has finished and [blocker] is closed. *)
Lemma collected_state cfg st :
  reachable cfg st -> collected st ->
  length (wrk st) = Z.to_nat (thread_number cfg) /\
  (forall i pc, wrk st !! i = Some pc -> pc = WDone) /\
  (forall k f, fib st !! k = Some f -> f = FDone) /\
  (0 < thread_number cfg ->
   blocker st = Closed /\ length (fib st) = Z.to_nat (fiber_number cfg)).
Proof.
  intros Hr Hcol.
  destruct (shape_invariant _ _ Hr) as (_ & Hd & _).
  pose proof (fleet_invariant _ _ Hr) as (_ & Hw).
  pose proof (driver_link_invariant _ _ Hr) as (_ & _ & _ & _ & _ & _ & D7).
  assert (length (wrk st) = Z.to_nat (thread_number cfg) /\
          forall i, (i < length (wrk st))%nat -> wrk st !! i = Some WDone)
    as [Hlen HD].
  { destruct Hcol as [Hc|[Hc|Hc]]; rewrite Hc in Hd, D7;
      (split; [tauto|]); intros i Hi; by destruct (D7 i Hi). }
  assert (forall i pc, wrk st !! i = Some pc -> pc = WDone) as Hall.
  { intros i pc Hi. rewrite HD in Hi by (by eapply lookup_lt_Some).
    congruence. }
  split_and!; [done|done| |].
  - intros k f Hk. destruct (wrk st !! 0%nat) as [pc0|] eqn:H0.
    + rewrite (Hall _ _ H0) in Hw. destruct Hw as (_ & _ & Hw).
      rewrite Hw in Hk by (by eapply lookup_lt_Some). congruence.
    + destruct Hw as [Hw _]. apply lookup_lt_Some in Hk. lia.
  - intros Htn. destruct (wrk st !! 0%nat) as [pc0|] eqn:H0.
    + rewrite (Hall _ _ H0) in Hw. tauto.
    + apply lookup_ge_None in H0. lia.
Qed.

Lemma finished_state cfg st :
  reachable cfg st -> finished st ->
  length (wrk st) = Z.to_nat (thread_number cfg) /\
  (forall i pc, wrk st !! i = Some pc -> pc = WDone) /\
  (forall k f, fib st !! k = Some f -> f = FDone) /\
  (0 < thread_number cfg ->
   blocker st = Closed /\ length (fib st) = Z.to_nat (fiber_number cfg)).
Proof.
  intros Hr Hfin. apply collected_state; [done|]. unfold collected. auto.
Qed.

(** Once every future has been collected only the calling thread moves. *)
Lemma collected_stuck cfg st :
  reachable cfg st -> collected st ->
  (forall i, exec cfg (LWorker i) st = None) /\
  (forall k, exec cfg (LFiber k) st = None).
Proof.
  intros Hr Hcol.
  destruct (collected_state _ _ Hr Hcol) as (_ & Hw & Hf & _).
  split.
  - intros i. simpl.
    destruct (wrk st !! i) as [pc|] eqn:Hi; [|done]. by rewrite (Hw _ _ Hi).
  - intros k. simpl.
    destruct (fib st !! k) as [f|] eqn:Hk; [|done]. rewrite (Hf _ _ Hk).
    by destruct (host_available cfg st).
Qed.

(** Nothing moves once [bench_mark] has returned. *)
Lemma finished_stuck cfg st l :
  reachable cfg st -> finished st -> exec cfg l st = None.
Proof.
  intros Hr Hfin.
  destruct (collected_stuck cfg st Hr) as [Hw Hf];
    [unfold collected; auto|].
  destruct l as [t|i|k]; [|done|done].
  simpl. unfold driver_step. by rewrite Hfin.
Qed.

(** The result is the last thing that happens. *)
Lemma finished_hist cfg s :
  reachable cfg s -> finished s -> exists h, hist s = EvResult :: h.
Proof.
  induction 1 as [|st l st' Hr IH Hex]; [done|].
  intros Hfin. unfold finished in *.
  destruct (decide (drv st = DDone)) as [Hd|Hd].
  { by rewrite (finished_stuck _ _ l Hr Hd) in Hex. }
  destruct l as [t|i|k]; exec_inv Hex; simpl in *; try done; eauto.
Qed.

(** The ends of the history: the header, then the first reading of the
    clock; at the end the second reading, then the result. *)
Lemma history_ends cfg s :
  reachable cfg s ->
  match drv s with
  | DHeader => hist s = []
  | DSetup | DClock0 | DThrown => hist s = [EvHeader]
  | DLaunch _ | DGet _ | DClock1 =>
      exists h, hist s = h ++ [EvClock (starting_point s); EvHeader]
  | DResult =>
      exists h, hist s = EvClock (stopping_point s) :: h
                         ++ [EvClock (starting_point s); EvHeader]
  | DDone =>
      exists h, hist s = EvResult :: EvClock (stopping_point s) :: h
                         ++ [EvClock (starting_point s); EvHeader]
  end.
Proof.
  induction 1 as [|st l st' Hr IH Hex]; [done|].
  destruct (shape_invariant _ _ Hr) as (_ & Hd & Hf & _).
  pose proof (fleet_invariant _ _ Hr) as (_ & Hw).
  destruct l as [t|i|k].
  - exec_inv Hex; simpl; try done.
    + by rewrite IH.
    + rewrite IH. by exists [].
    + destruct IH as [h ->]. by exists (EvLaunch k :: h).
    + destruct IH as [h ->]. by exists (EvGet k :: h).
    + exfalso. by eapply Hf.
    + destruct IH as [h ->]. by exists h.
    + destruct IH as [h ->]. by exists h.
  - destruct (decide (collected st)) as [Hcol|Hcol].
    { destruct (collected_stuck _ _ Hr Hcol) as [Hs _]. by rewrite Hs in Hex. }
    assert (drv st' = drv st /\ starting_point st' = starting_point st /\
            (hist st' = hist st \/ exists e, hist st' = e :: hist st))
      as (-> & -> & Hh)
      by (exec_inv Hex; simpl; split_and!; eauto).
    simpl in Hex. destruct (wrk st !! i) as [pc|] eqn:Hi; [|done].
    apply lookup_lt_Some in Hi.
    unfold collected in Hcol.
    destruct (drv st); try (destruct Hd; lia); try tauto.
    all: destruct IH as [h IH]; destruct Hh as [->|[e ->]]; rewrite IH;
      [by exists h|by exists (e :: h)].
  - destruct (decide (collected st)) as [Hcol|Hcol].
    { destruct (collected_stuck _ _ Hr Hcol) as [_ Hs]. by rewrite Hs in Hex. }
    assert (drv st' = drv st /\ starting_point st' = starting_point st /\
            exists e, hist st' = e :: hist st)
      as (-> & -> & e & ->)
      by (exec_inv Hex; simpl; split_and!; eauto).
    simpl in Hex. destruct (fib st !! k) as [f|] eqn:Hk; [|done].
    apply lookup_lt_Some in Hk.
    assert (0 < length (wrk st))%nat as Hpos.
    { destruct (wrk st) as [|pc0 w]; [|simpl; lia].
      simpl in Hw. destruct Hw. lia. }
    unfold collected in Hcol.
    destruct (drv st); try (destruct Hd; lia); try tauto.
    all: destruct IH as [h IH]; rewrite IH; by exists (e :: h).
Qed.

(** The header is the first thing that happens. *)
Lemma header_first cfg st :
  reachable cfg st -> drv st <> DHeader ->
  exists h, hist st = h ++ [EvHeader] /\ ~ In EvHeader h.
Proof.
  intros Hr Hd.
  pose proof (driver_link_invariant _ _ Hr) as (_ & D2 & _).
  destruct (in_split _ _ (D2 Hd)) as (post & pre & Heq).
  pose proof (history_ok _ _ Hr _ _ _ Heq) as Hok. simpl in Hok. subst pre.
  exists post. split; [done|]. intros Hin.
  destruct (in_split _ _ Hin) as (p1 & p2 & ->).
  rewrite <- app_assoc in Heq. simpl in Heq.
  pose proof (history_ok _ _ Hr _ _ _ Heq) as Hok. simpl in Hok.
  by destruct p2.
Qed.

Lemma clock_readings_app h1 h2 :
  clock_readings (h1 ++ h2) = clock_readings h1 ++ clock_readings h2.
Proof.
  induction h1 as [|e h1 IH]; simpl; [done|].
  destruct e; simpl; by rewrite ?IH.
Qed.


(** ** The countdown loop alone *)

Lemma bench_loop_returned fuel c y n :
  bench_loop fuel c y = Returned n ->
  0 <= c /\ n = (y + Z.to_nat c)%nat /\ (Z.to_nat c < fuel)%nat.
Proof.
  revert c y. induction fuel as [|fuel IH]; intros c y H; simpl in H; [done|].
  unfold bench_step in H.
  destruct (c =? 0) eqn:E0; bools.
  - simplify_eq. simpl. lia.
  - destruct (c =? INT_MIN) eqn:E1; bools; [done|].
    destruct (IH _ _ H) as (? & ? & ?). lia.
Qed.

Lemma bench_loop_returns fuel c y :
  0 <= c -> (Z.to_nat c < fuel)%nat ->
  bench_loop fuel c y = Returned (y + Z.to_nat c).
Proof.
  revert c y. induction fuel as [|fuel IH]; intros c y Hc Hf; [lia|].
  simpl. unfold bench_step.
  destruct (c =? 0) eqn:E0; bools.
  - subst. simpl. f_equal. lia.
  - destruct (c =? INT_MIN) eqn:E1; bools; [unfold INT_MIN in *; lia|].
    rewrite IH by lia. f_equal. lia.
Qed.

(** With a negative [int] the countdown runs down to [INT_MIN], where the
    decrement overflows. *)
Lemma bench_loop_overflows fuel c y :
  INT_MIN <= c < 0 -> (Z.to_nat (c - INT_MIN) < fuel)%nat ->
  bench_loop fuel c y = Undefined (S (y + Z.to_nat (c - INT_MIN))).
Proof.
  revert c y. induction fuel as [|fuel IH]; intros c y Hc Hf; [lia|].
  simpl. unfold bench_step.
  destruct (c =? 0) eqn:E0; bools; [lia|].
  destruct (c =? INT_MIN) eqn:E1; bools.
  - subst. rewrite Z.sub_diag. simpl. f_equal. lia.
  - rewrite IH by lia. f_equal. lia.
Qed.

(** C10.  The loop of [bench] returns exactly when [iterations] is not
    negative (and the fuel is enough), and then it has made exactly
    [iterations] yields: with a negative [iterations] the guard
    [counter != 0] never fails and the loop does not return, whatever the
    fuel. *)
Theorem bench_returns_iff_nonnegative (fuel : nat) (iterations : Z) (n : nat) :
  bench fuel iterations = Returned n <->
  0 <= iterations /\ n = Z.to_nat iterations /\
  (Z.to_nat iterations < fuel)%nat.
Proof.
  unfold bench. split.
  - intros H. apply bench_loop_returned in H. simpl in H. done.
  - intros (H0 & -> & Hf). by rewrite bench_loop_returns.
Qed.

(** ** The claims *)

Lemma st_small_reachable : reachable cfg_small st_small.
Proof. apply reachable_bench_mark. Qed.

Lemma st_small_finished : finished st_small.
Proof. vm_compute. reflexivity. Qed.

Lemma clock_readings_rev h : clock_readings (rev h) = rev (clock_readings h).
Proof.
  induction h as [|e h IH]; simpl; [done|].
  rewrite clock_readings_app, IH. by destruct e; simpl; rewrite ?app_nil_r.
Qed.

(** C1.  A trial that has ended went: header, first reading [t0] of the
    clock, everything the threads and fibers did, second reading [t1],
    result.  The two numbers of the result are the duration from [t0] to
    [t1] in seconds, and that duration divided by [iterations], the quotient
    divided by [fiber_number], the result multiplied by [1e9]. *)
Theorem per_switch_cost (cfg : config) (st : state) :
  reachable cfg st -> finished st ->
  exists t0 t1 mid,
    trace st = EvHeader :: EvClock t0 :: mid ++ [EvClock t1; EvResult] /\
    clock_readings mid = [] /\
    cout st = header cfg ++
      [OStr " time: "; ODouble (duration_count t0 t1);
       OStr " inter context switch: ";
       ODouble (PrimFloat.mul
                  (PrimFloat.div
                     (PrimFloat.div (duration_count t0 t1)
                                    (double_of_Z (iterations cfg)))
                     (double_of_Z (fiber_number cfg)))
                  1e9);
       OEndl].
Proof.
  intros Hr Hfin. unfold finished in Hfin.
  pose proof (driver_link_invariant _ _ Hr) as (_ & _ & D3 & D4 & _).
  pose proof (history_ends _ _ Hr) as He.
  rewrite Hfin in D3, D4, He. destruct He as [h Hh].
  exists (starting_point st), (stopping_point st), (rev h). split_and!.
  - unfold trace. rewrite Hh. simpl. rewrite rev_app_distr. simpl.
    by rewrite <- !app_assoc.
  - rewrite clock_readings_rev.
    rewrite Hh in D3. simpl in D3. rewrite clock_readings_app in D3.
    simpl in D3. destruct (clock_readings h); [done|].
    simplify_eq/=. by destruct l.
  - exact D4.
Qed.

Lemma per_switch_cost_witness :
  reachable cfg_small st_small /\ finished st_small /\
  exists t0 t1 mid,
    trace st_small = EvHeader :: EvClock t0 :: mid ++ [EvClock t1; EvResult] /\
    clock_readings mid = [] /\
    cout st_small = header cfg_small ++
      [OStr " time: "; ODouble (duration_count t0 t1);
       OStr " inter context switch: ";
       ODouble (PrimFloat.mul
                  (PrimFloat.div
                     (PrimFloat.div (duration_count t0 t1) (double_of_Z 3))
                     (double_of_Z 2))
                  1e9);
       OEndl].
Proof.
  split; [exact st_small_reachable|]. split; [exact st_small_finished|].
  exact (per_switch_cost cfg_small st_small st_small_reachable st_small_finished).
Defined.

(** What the example trial prints last: 27 ticks of a nanosecond, over
    three iterations and two fibers, are 4.5 ns per switch. *)
Example per_switch_cost_small :
  last (cout st_small) = Some OEndl /\
  clock_readings (trace st_small) = [1; 28] /\
  inter_context_switch cfg_small (duration_count 1 28) = 4.5%float.
Proof. vm_compute. done. Qed.

Lemma header_no_endl cfg : ~ In OEndl (header cfg).
Proof. unfold header. simpl. intros H. decompose [or] H; done. Qed.

(** C8.  The header is written first, before anything else of the trial
    happens, and reads [threads: <int> fibers: <int> iterations: <int>
    scheduler: <ordinal> suspend: <0|1>]; while the trial runs nothing more
    is written; the result is written last, after the header on the same
    line, reads [ time: <double> inter context switch: <double>] and ends
    the line. *)
Theorem output_format (show_double : float -> string) (cfg : config)
  (st : state) :
  reachable cfg st ->
  render show_double (header cfg) =
    String.append "threads: " (String.append (string_of_Z (thread_number cfg))
   (String.append " fibers: " (String.append (string_of_Z (fiber_number cfg))
   (String.append " iterations: " (String.append (string_of_Z (iterations cfg))
   (String.append " scheduler: "
      (String.append (match scheduler cfg with
                      | round_robin => "0"
                      | shared_work => "1"
                      | work_stealing => "2"
                      end)
   (String.append " suspend: " (if suspend cfg then "1" else "0"))))))))) /\
  ~ In OEndl (header cfg) /\
  (forall d,
     render show_double (result_line cfg d) =
       String.append " time: " (String.append (show_double d)
      (String.append " inter context switch: "
      (String.append (show_double (inter_context_switch cfg d)) newline)))) /\
  (drv st = DHeader -> cout st = [] /\ trace st = []) /\
  (drv st <> DHeader -> exists h, trace st = EvHeader :: h /\ ~ In EvHeader h) /\
  (drv st <> DHeader -> ~ finished st ->
   cout st = header cfg /\ ~ In EvResult (trace st)) /\
  (finished st ->
   exists h, trace st = h ++ [EvResult] /\ ~ In EvResult h /\
     cout st = header cfg ++
               result_line cfg
                 (duration_count (starting_point st) (stopping_point st))).
Proof.
  intros Hr.
  pose proof (driver_link_invariant _ _ Hr) as (D1 & D2 & D3 & D4 & D5 & _).
  split_and!.
  - unfold header, render. simpl.
    destruct (scheduler cfg), (suspend cfg); reflexivity.
  - apply header_no_endl.
  - intros d. reflexivity.
  - intros Hd. rewrite Hd in D4. unfold trace. by rewrite (D1 Hd).
  - intros Hd. destruct (header_first _ _ Hr Hd) as (h & Hh & Hn).
    exists (rev h). unfold trace. rewrite Hh, rev_app_distr. split; [done|].
    by rewrite <- in_rev.
  - intros Hd Hfin. unfold finished in Hfin. split.
    + by destruct (drv st).
    + unfold trace. rewrite <- in_rev. intros Hin.
      pose proof (occurrences_pos is_result _ _ Hin eq_refl).
      rewrite D5 in H. case_bool_decide; [done|simpl in H; lia].
  - intros Hfin. destruct (finished_hist _ _ Hr Hfin) as (h & Hh).
    unfold finished in Hfin. rewrite Hfin in D4, D5.
    exists (rev h). unfold trace. rewrite Hh. simpl. split_and!; [done| |done].
    rewrite <- in_rev. intros Hin.
    pose proof (occurrences_pos is_result _ _ Hin eq_refl).
    rewrite Hh in D5. simpl in D5. lia.
Qed.

Lemma output_format_witness :
  reachable cfg_small st_small /\
  render (fun _ => "<double>"%string) (header cfg_small)
  = "threads: 2 fibers: 2 iterations: 3 scheduler: 1 suspend: 0"%string /\
  (exists h, trace st_small = EvHeader :: h /\ ~ In EvHeader h) /\
  (exists h, trace st_small = h ++ [EvResult] /\ ~ In EvResult h /\
     cout st_small = header cfg_small ++
                     result_line cfg_small (duration_count 1 28)).
Proof.
  split; [exact st_small_reachable|].
  destruct (output_format (fun _ => "<double>"%string) cfg_small st_small
              st_small_reachable) as (H1 & _ & _ & _ & H5 & _ & H7).
  split; [exact H1|]. split.
  - apply H5. vm_compute. discriminate.
  - apply H7. exact st_small_finished.
Defined.

(** The end-to-end scenario of the specification. *)
Example header_end_to_end :
  render (fun _ => "<double>"%string)
         (header (mkConfig 2 10 1000 round_robin false))
  = "threads: 2 fibers: 10 iterations: 1000 scheduler: 0 suspend: 0"%string.
Proof. reflexivity. Qed.

(** C4.  In every state of a trial, each worker thread has called
    [install_fiber_scheduler] at most once, with the scheduler, the thread
    count and the suspend flag of the trial; whenever it calls
    [count_down_and_wait] it has installed exactly once before; when the
    trial has ended every thread has installed exactly once.  For
    [round_robin] the installer calls nothing, for [work_stealing] it passes
    the thread count and the suspend flag. *)
Theorem install_once_before_barrier (cfg : config) (st : state) :
  reachable cfg st ->
  (forall i,
     (occurrences (is_install i) (hist st) <= 1)%nat /\
     (forall after before,
        hist st = after ++ EvArrive i :: before ->
        occurrences (is_install i) before = 1%nat /\
        occurrences (is_install i) after = 0%nat) /\
     (forall calls,
        In (EvInstall i calls) (hist st) ->
        calls = install_fiber_scheduler
                  (scheduler cfg) (thread_number cfg) (suspend cfg)) /\
     (finished st -> Z.of_nat i < thread_number cfg ->
      occurrences (is_install i) (hist st) = 1%nat)) /\
  install_fiber_scheduler round_robin (thread_number cfg) (suspend cfg) = [] /\
  install_fiber_scheduler shared_work (thread_number cfg) (suspend cfg)
  = [use_shared_work] /\
  install_fiber_scheduler work_stealing (thread_number cfg) (suspend cfg)
  = [use_work_stealing (thread_number cfg) (suspend cfg)].
Proof.
  intros Hr. split; [|done].
  pose proof (worker_link_invariant _ _ Hr) as (W1 & W2 & _).
  intros i.
  assert (occurrences (is_install i) (hist st) <= 1)%nat as Hle.
  { destruct (wrk st !! i) as [pc|] eqn:Hi.
    - destruct (W2 _ _ Hi) as (-> & _). destruct (installed pc); simpl; lia.
    - rewrite (W1 _ Hi). lia. }
  split_and!; [done| | |].
  - intros after before Hh.
    pose proof (history_ok _ _ Hr _ _ _ Hh) as Hok. simpl in Hok.
    split; [done|]. rewrite Hh, occurrences_app in Hle. simpl in Hle. lia.
  - intros calls Hin. destruct (in_split _ _ Hin) as (post & pre & Hh).
    by destruct (history_ok _ _ Hr _ _ _ Hh) as (? & _).
  - intros Hfin Hi.
    destruct (finished_state _ _ Hr Hfin) as (Hlen & Hall & _).
    destruct (lookup_lt_is_Some_2 (wrk st) i) as [pc Hpc]; [lia|].
    destruct (W2 _ _ Hpc) as (-> & _). by rewrite (Hall _ _ Hpc).
Qed.

Lemma install_once_before_barrier_witness :
  reachable cfg_small st_small /\
  occurrences (is_install 0) (hist st_small) = 1%nat /\
  occurrences (is_install 1) (hist st_small) = 1%nat /\
  (forall calls, In (EvInstall 1 calls) (hist st_small) ->
                 calls = [use_shared_work]).
Proof.
  split; [exact st_small_reachable|].
  destruct (install_once_before_barrier cfg_small st_small st_small_reachable)
    as (H & _).
  split; [|split].
  - destruct (H 0%nat) as (_ & _ & _ & H0). apply H0; [reflexivity|].
    vm_compute. reflexivity.
  - destruct (H 1%nat) as (_ & _ & _ & H1). apply H1; [reflexivity|].
    vm_compute. reflexivity.
  - destruct (H 1%nat) as (_ & _ & H1 & _). exact H1.
Defined.

(** What has happened before a given event has happened before every
    later one. *)
Lemma history_before cfg st after e before :
  reachable cfg st -> hist st = after ++ e :: before ->
  forall e', In e' before ->
  exists mid early, hist st = (after ++ e :: mid) ++ e' :: early /\
                    before = mid ++ e' :: early.
Proof.
  intros Hr Hh e' Hin. destruct (in_split _ _ Hin) as (mid & early & ->).
  exists mid, early. split; [|done]. rewrite Hh, <- app_assoc. done.
Qed.






(** A fiber whose [bench] has returned stays finished. *)
Lemma returned_done cfg s :
  reachable cfg s -> forall k, In (EvReturn k) (hist s) -> fib s !! k = Some FDone.
Proof.
  induction 1 as [|st l st' Hr IH Hex]; [done|].
  intros j. destruct l as [t|i|k]; exec_inv Hex; simpl; try (by apply IH).
  all: intros [|Hin]; simplify_eq; try (by apply IH).
  all: try (apply list_lookup_insert_eq; by eapply lookup_lt_Some).
  all: specialize (IH _ Hin).
  all: try (rewrite list_lookup_insert_ne; [done|]; intros ->; congruence).
  rewrite lookup_app_l; [done|]. by eapply lookup_lt_Some.
Qed.





(** ** Where the clock is started *)




(** ** The sweep *)

Lemma fiber_loop_with_thread_number tn :
  fiber_loop tn = with_thread_number tn <$> fiber_loop 0.
Proof. reflexivity. Qed.

Lemma fiber_loop_spec tn :
  fiber_loop tn =
  flat_map (fun fn =>
  flat_map (fun it =>
  flat_map (fun s =>
  map (fun susp => mkConfig tn fn it s susp) (suspend_for s))
  (non_stealing_schedulers ++ stealing_schedulers))
  iteration_counts)
  fiber_numbers.
Proof. reflexivity. Qed.

Lemma fiber_loop_sorted tn : StronglySorted nested_before (fiber_loop tn).
Proof.
  rewrite fiber_loop_with_thread_number.
  apply (StronglySorted_fmap _ inner_before).
  - intros c1 c2 H. unfold nested_before. simpl. right. split; [done|exact H].
  - apply (bool_decide_unpack _). vm_compute. reflexivity.
Qed.

Lemma fiber_loop_thread_number tn c :
  In c (fiber_loop tn) -> thread_number c = tn.
Proof.
  rewrite fiber_loop_with_thread_number. intros H.
  apply list_elem_of_In, list_elem_of_fmap in H as (c0 & -> & _). done.
Qed.

Lemma thread_loop_thread_number fuel tn lim c :
  In c (thread_loop fuel tn lim) -> tn <= thread_number c.
Proof.
  revert tn. induction fuel as [|fuel IH]; intros tn; cbn [thread_loop];
    [done|].
  destruct (tn mod 2 ^ 32 <=? lim); [|done].
  intros H. apply in_app_or in H as [H|H].
  - apply fiber_loop_thread_number in H. lia.
  - apply IH in H. lia.
Qed.

Lemma thread_loop_sorted fuel tn lim :
  StronglySorted nested_before (thread_loop fuel tn lim).
Proof.
  revert tn. induction fuel as [|fuel IH]; intros tn; cbn [thread_loop];
    [constructor|].
  destruct (tn mod 2 ^ 32 <=? lim); [|constructor].
  apply StronglySorted_app_2; [|apply fiber_loop_sorted|apply IH].
  intros c1 c2 H1 H2. apply list_elem_of_In in H1, H2.
  apply fiber_loop_thread_number in H1.
  apply thread_loop_thread_number in H2.
  unfold nested_before. simpl. left. lia.
Qed.

Lemma thread_loop_spec fuel tn lim :
  1 <= tn -> lim <= INT_MAX -> tn + Z.of_nat fuel = lim + 1 ->
  thread_loop fuel tn lim
  = flat_map fiber_loop (map Z.of_nat (seq (Z.to_nat tn) fuel)).
Proof.
  revert tn. induction fuel as [|fuel IH]; intros tn H1 Hl Hf;
    cbn [thread_loop seq map flat_map]; [done|].
  unfold INT_MAX in Hl.
  rewrite Z.mod_small by lia.
  destruct (tn <=? lim) eqn:E; bools; [|lia].
  rewrite Z2Nat.id by lia. f_equal.
  rewrite IH by (unfold INT_MAX; lia). do 3 f_equal. lia.
Qed.

Lemma lex_lt_irrefl a : ~ lex_lt a a.
Proof. induction a as [|x a IH]; simpl; [tauto|]. intros [?|[_ ?]]; [lia|auto]. Qed.

Lemma StronglySorted_NoDup {A} (R : relation A) (l : list A) :
  (forall x, ~ R x x) -> StronglySorted R l -> List.NoDup l.
Proof.
  intros Hirr. induction 1 as [|x l Hs IH Hall]; constructor; [|done].
  intros Hin. rewrite Forall_forall in Hall.
  apply (Hirr x), Hall. by apply list_elem_of_In.
Qed.

(** C2.  On a machine with [h] hardware threads ([2*h] an [int]), [main]
    calls [bench_mark] for exactly the configurations of the sweep of the
    specification and in its order: thread counts [1 .. 2*h] outermost,
    then the fiber counts, the iteration counts, the schedulers, and
    innermost the suspend flag, which is [false] only for [round_robin] and
    [shared_work] and [false] then [true] for [work_stealing].  The calls
    are strictly increasing in that nested order, so none is repeated, and
    their number is the product of the claim. *)
Theorem sweep_nested_and_complete (h : Z) :
  0 <= h -> 2 * h <= INT_MAX ->
  main h = sweep_spec h /\
  (forall tn, In tn (thread_counts h) <-> 1 <= tn <= 2 * h) /\
  (forall c, In c (main h) <->
     1 <= thread_number c <= 2 * h /\
     In (fiber_number c) fiber_numbers /\
     In (iterations c) iteration_counts /\
     (suspend c = true -> scheduler c = work_stealing)) /\
  StronglySorted nested_before (main h) /\
  List.NoDup (main h) /\
  length (main h)
  = (length (thread_counts h) * length fiber_numbers * length iteration_counts
     * (length non_stealing_schedulers
        + length stealing_schedulers * length suspend_options))%nat.
Proof.
  intros H0 Hmax. unfold INT_MAX in Hmax.
  assert (main h = sweep_spec h) as Heq.
  { unfold main, sweep_spec, thread_counts.
    rewrite Z.mod_small by lia.
    rewrite thread_loop_spec by (unfold INT_MAX; lia).
    apply flat_map_ext. intros tn. apply fiber_loop_spec. }
  assert (forall tn, In tn (thread_counts h) <-> 1 <= tn <= 2 * h) as Htc.
  { intros tn. unfold thread_counts. rewrite in_map_iff. split.
    - intros (n & <- & Hn). apply in_seq in Hn. lia.
    - intros Htn. exists (Z.to_nat tn). split; [lia|]. apply in_seq. lia. }
  assert (StronglySorted nested_before (main h)) as Hs
    by apply thread_loop_sorted.
  split_and!; [done|done| |done| |].
  - intros c. rewrite Heq. unfold sweep_spec. split.
    + intros H. apply in_flat_map in H as (tn & Htn & H).
      apply in_flat_map in H as (fn & Hfn & H).
      apply in_flat_map in H as (it & Hit & H).
      apply in_flat_map in H as (s & Hsch & H).
      apply in_map_iff in H as (b & <- & Hb). simpl.
      apply Htc in Htn. split; [lia|]. split; [done|]. split; [done|].
      intros ->. unfold suspend_for in Hb.
      case_decide; [done|]. simpl in Hb. intuition discriminate.
    + intros (Htn & Hfn & Hit & Hb). destruct c as [tn fn it s b].
      cbn [thread_number fiber_number iterations scheduler suspend] in *.
      apply in_flat_map. exists tn. split; [by apply Htc|].
      apply in_flat_map. exists fn. split; [done|].
      apply in_flat_map. exists it. split; [done|].
      apply in_flat_map. exists s. split; [destruct s; simpl; tauto|].
      apply in_map_iff. exists b. split; [done|].
      unfold suspend_for.
      destruct b; [rewrite Hb by done|]; repeat case_decide; simpl; auto.
  - eapply StronglySorted_NoDup; [|exact Hs].
    intros c. apply lex_lt_irrefl.
  - rewrite Heq. unfold sweep_spec.
    rewrite flat_map_constant_length with (c := 96%nat); [simpl; lia|].
    intros tn _. reflexivity.
Qed.

Lemma sweep_nested_and_complete_witness :
  0 <= 2 /\ 2 * 2 <= INT_MAX /\
  main 2 = sweep_spec 2 /\ length (main 2) = 384%nat /\
  StronglySorted nested_before (main 2).
Proof.
  assert (0 <= 2) as H0 by (vm_compute; discriminate).
  assert (2 * 2 <= INT_MAX) as H1 by (vm_compute; discriminate).
  destruct (sweep_nested_and_complete 2 H0 H1) as (Heq & _ & _ & Hs & _ & Hl).
  split; [exact H0|]. split; [exact H1|]. split; [exact Heq|].
  split; [exact Hl|exact Hs].
Defined.

(** * Further properties of the code *)

(** ** The barrier *)

Lemma install_at_most_once cfg st j :
  reachable cfg st -> (occurrences (is_install j) (hist st) <= 1)%nat.
Proof.
  intros Hr. pose proof (worker_link_invariant _ _ Hr) as (W1 & W2 & _).
  destruct (wrk st !! j) as [pc|] eqn:Hj.
  - destruct (W2 _ _ Hj) as (-> & _). destruct (installed pc); simpl; lia.
  - rewrite (W1 _ Hj). lia.
Qed.


Lemma pass_all_ready cfg st after i before :
  int_range (thread_number cfg) -> reachable cfg st ->
  hist st = after ++ EvPass i :: before -> all_ready cfg before.
Proof.
  intros Hint Hr Hh j Hj.
  destruct (history_ok _ _ Hr _ _ _ Hh) as (_ & Hall).
  specialize (Hall Hint j Hj). split; [|done].
  destruct (history_before _ _ _ _ _ Hr Hh _ Hall) as (mid & early & Hh' & ->).
  pose proof (history_ok _ _ Hr _ _ _ Hh') as Hok. simpl in Hok.
  pose proof (install_at_most_once cfg st j Hr) as Hle.
  rewrite Hh', !occurrences_app in Hle. simpl in Hle.
  rewrite ?occurrences_app in Hle. simpl in Hle.
  rewrite occurrences_app. simpl. lia.
Qed.



(** ** The yields of a trial *)

Lemma sum_indicator_seq (k0 n : nat) :
  sum_list_with (fun k => b2n (bool_decide (k0 = k))) (seq 0 n)
  = b2n (bool_decide (k0 < n)%nat).
Proof.
  induction n as [|n IH]; [done|].
  rewrite seq_S, sum_list_with_snoc, IH. simpl.
  repeat case_bool_decide; simpl; lia.
Qed.


Lemma sum_constant_seq (f : nat -> nat) (c n : nat) :
  (forall k, (k < n)%nat -> f k = c) ->
  sum_list_with f (seq 0 n) = (n * c)%nat.
Proof.
  induction n as [|n IH]; intros H; [done|].
  rewrite seq_S, sum_list_with_snoc, IH by (intros; apply H; lia).
  simpl. rewrite H by lia. lia.
Qed.




(** ** A negative iteration count *)

(** X3.  With a negative [iterations], at least one thread and at least one
    fiber, a trial never ends: as long as its behaviour is defined (up to
    the decrement of [INT_MIN]) no fiber returns from [bench], thread 0 never
    gets through its first [join], [blocker] is never closed and
    [bench_mark] never returns. *)
Theorem negative_iterations_never_finish (cfg : config) (st : state) :
  iterations cfg < 0 -> 0 < thread_number cfg -> 0 < fiber_number cfg ->
  reachable cfg st ->
  (forall k, fib st !! k <> Some FDone) /\
  (forall k, ~ In (EvReturn k) (hist st)) /\
  (forall i k, ~ In (EvJoin i k) (hist st)) /\
  blocker st = Open /\
  ~ finished st.
Proof.
  intros Hit Htn Hfn Hr.
  pose proof (fiber_invariant _ _ Hr) as (_ & FD & _).
  pose proof (fleet_invariant _ _ Hr) as (_ & Hw).
  assert (forall k, fib st !! k <> Some FDone) as Hnd.
  { intros k Hk. destruct (FD _ Hk) as [Heq _]. lia. }
  assert (forall k, ~ In (EvReturn k) (hist st)) as Hnr.
  { intros k Hin. by apply (Hnd k), (returned_done _ _ Hr). }
  assert (blocker st = Open) as Hop.
  { destruct (blocker st) eqn:Hb; [done|].
    destruct (wrk st !! 0%nat) as [[]|]; destruct_and?; try congruence.
    exfalso. apply (Hnd 0%nat).
    match goal with H : forall j, _ -> fib st !! j = Some FDone |- _ =>
      apply H end. lia. }
  split_and!; [done|done| |done|].
  - intros i k Hin. destruct (in_split _ _ Hin) as (after & before & Hh).
    destruct (history_ok _ _ Hr _ _ _ Hh) as (_ & Hret).
    apply (Hnr k). rewrite Hh. apply in_or_app. right. by right.
  - intros Hfin. destruct (finished_state _ _ Hr Hfin) as (_ & _ & _ & Hcl).
    destruct (Hcl Htn). congruence.
Qed.

Lemma negative_iterations_never_finish_witness :
  iterations cfg_negative < 0 /\
  reachable cfg_negative (bench_mark 200 cfg_negative) /\
  blocker (bench_mark 200 cfg_negative) = Open /\
  ~ finished (bench_mark 200 cfg_negative).
Proof.
  assert (iterations cfg_negative < 0) as H1 by (vm_compute; reflexivity).
  split; [exact H1|]. split; [apply reachable_bench_mark|].
  destruct (negative_iterations_never_finish cfg_negative
              (bench_mark 200 cfg_negative) H1)
    as (_ & _ & _ & H4 & H5);
    [vm_compute; reflexivity|vm_compute; reflexivity
    |apply reachable_bench_mark|].
  split; [exact H4|exact H5].
Defined.

(** ** An empty fleet *)




(** ** The outcome of a trial *)




(** ** The countdown loop, in closed form *)

Lemma bench_loop_running fuel c y :
  INT_MIN <= c ->
  (0 <= c -> (fuel <= Z.to_nat c)%nat) ->
  (c < 0 -> (fuel <= Z.to_nat (c - INT_MIN))%nat) ->
  bench_loop fuel c y = Running (y + fuel).
Proof.
  revert c y. induction fuel as [|fuel IH]; intros c y Hc Hp Hn.
  { simpl. f_equal. lia. }
  simpl. unfold bench_step.
  destruct (c =? 0) eqn:E0; bools.
  { subst. specialize (Hp ltac:(lia)). simpl in Hp. lia. }
  destruct (c =? INT_MIN) eqn:E1; bools.
  { subst. unfold INT_MIN in Hn. specialize (Hn ltac:(lia)). simpl in Hn. lia. }
  rewrite IH; [f_equal; lia|lia|intros; specialize (Hp ltac:(lia)); lia|].
  intros. specialize (Hn ltac:(lia)). lia.
Qed.

(** X6.  What [bench] does after [fuel] turns of its loop, for every [int]
    value of [iterations]: from a value that is not negative it returns after
    exactly [iterations] yields; from a negative one it yields
    [iterations - INT_MIN + 1] times and then decrements [INT_MIN], a signed
    overflow; before that it is still running and has yielded once per
    turn. *)
Theorem bench_closed_form (fuel : nat) (iterations : Z) :
  INT_MIN <= iterations ->
  bench fuel iterations =
    if 0 <=? iterations
    then if (Z.to_nat iterations <? fuel)%nat
         then Returned (Z.to_nat iterations) else Running fuel
    else if (Z.to_nat (iterations - INT_MIN) <? fuel)%nat
         then Undefined (S (Z.to_nat (iterations - INT_MIN)))
         else Running fuel.
Proof.
  intros Hmin. unfold bench.
  destruct (0 <=? iterations) eqn:E; bools.
  - destruct (Z.to_nat iterations <? fuel)%nat eqn:F.
    + apply Nat.ltb_lt in F. by rewrite bench_loop_returns.
    + apply Nat.ltb_ge in F. rewrite bench_loop_running; [done|done|done|lia].
  - destruct (Z.to_nat (iterations - INT_MIN) <? fuel)%nat eqn:F.
    + apply Nat.ltb_lt in F. by rewrite bench_loop_overflows by lia.
    + apply Nat.ltb_ge in F. rewrite bench_loop_running; [done|done|lia|done].
Qed.

Lemma bench_closed_form_witness :
  bench 5 (INT_MIN + 2) = Undefined 3 /\ bench 2 (INT_MIN + 2) = Running 2 /\
  bench 5 4 = Returned 4.
Proof.
  split_and!.
  - exact (bench_closed_form 5 (INT_MIN + 2) ltac:(vm_compute; discriminate)).
  - exact (bench_closed_form 2 (INT_MIN + 2) ltac:(vm_compute; discriminate)).
  - exact (bench_closed_form 5 4 ltac:(vm_compute; discriminate)).
Defined.

(** ** [main] and its trials *)

(** X7.  [main] makes no call of [bench_mark] at all exactly when
    [2*std::thread::hardware_concurrency()] is 0 as an [unsigned]: the case
    of a machine where [hardware_concurrency()] returns 0. *)
Theorem main_empty_iff (h : Z) :
  main h = [] <-> (2 * h) mod 2 ^ 32 = 0.
Proof.
  unfold main. cbv zeta.
  pose proof (Z.mod_pos_bound (2 * h) (2 ^ 32) ltac:(lia)) as Hb.
  set (limit := (2 * h) mod 2 ^ 32) in *. split.
  - intros H. destruct (Z.to_nat limit) as [|fuel] eqn:E; [lia|].
    cbn [thread_loop] in H. change (1 mod 2 ^ 32) with 1 in H.
    destruct (1 <=? limit) eqn:E1; bools; [|lia].
    apply (f_equal length) in H. rewrite length_app in H.
    change (length (fiber_loop 1)) with 96%nat in H. simpl in H. lia.
  - intros ->. reflexivity.
Qed.





(** ** The counted loops *)








(** ** The threads that register with the scheduler *)

(** The installations of all threads are those of each, added up. *)
Lemma occurrences_any_install h n :
  (forall i calls, In (EvInstall i calls) h -> (i < n)%nat) ->
  occurrences is_any_install h
  = sum_list_with (fun i => occurrences (is_install i) h) (seq 0 n).
Proof.
  induction h as [|e h IH]; intros Hk.
  - simpl. induction (seq 0 n) as [|? ? IHs]; simpl; [done|]. by rewrite <- IHs.
  - assert (forall f g : nat -> nat, forall l,
               sum_list_with (fun k => (f k + g k)%nat) l
               = (sum_list_with f l + sum_list_with g l)%nat) as Hadd.
    { intros f g l. induction l as [|? ? IHl]; simpl; [done|]. lia. }
    cbn [occurrences].
    rewrite Hadd, <- IH by (intros k c Hin; apply (Hk k c); by right).
    assert (forall l : list nat, sum_list_with (fun _ => 0%nat) l = 0%nat)
      as Hzero by (intros l; induction l; simpl; congruence).
    f_equal. destruct e; cbn [is_install is_any_install b2n];
      try by rewrite Hzero.
    change 1%nat with (b2n true) at 1. fold (b2n true).
    rewrite sum_indicator_seq. rewrite bool_decide_eq_true_2; [done|].
    eapply Hk. by left.
Qed.

(** Only a thread that was started installs a scheduler. *)
Lemma install_in_threads cfg st i calls :
  reachable cfg st -> In (EvInstall i calls) (hist st) ->
  (i < length (wrk st))%nat.
Proof.
  intros Hr Hin. pose proof (worker_link_invariant _ _ Hr) as (W1 & _).
  destruct (wrk st !! i) as [pc|] eqn:Hi; [by eapply lookup_lt_Some|].
  pose proof (occurrences_pos (is_install i) _ _ Hin) as Hpos.
  rewrite (W1 _ Hi) in Hpos. simpl in Hpos.
  rewrite bool_decide_eq_true_2 in Hpos by done. specialize (Hpos eq_refl). lia.
Qed.

(** X10.  When a thread leaves the barrier, [install_fiber_scheduler] has
    been called [thread_number] times in all, and it is not called again
    afterwards.  With [work_stealing] each of these calls registers with
    [thread_number] as the thread count: the number of threads that
    register is the number the algorithm was told to expect. *)
Theorem registrations_match_thread_count (cfg : config) (st : state)
  (after : list event) (i : nat) (before : list event) :
  int_range (thread_number cfg) -> reachable cfg st ->
  hist st = after ++ EvPass i :: before ->
  Z.of_nat (occurrences is_any_install before) = thread_number cfg /\
  occurrences is_any_install after = 0%nat /\
  (scheduler cfg = work_stealing ->
   forall j calls, In (EvInstall j calls) (hist st) ->
     calls = [use_work_stealing (thread_number cfg) (suspend cfg)]).
Proof.
  intros Hint Hr Hh.
  pose proof (pass_all_ready _ _ _ _ _ Hint Hr Hh) as Hall.
  destruct (shape_invariant _ _ Hr) as (Hlen & _).
  assert (forall j calls, In (EvInstall j calls) (hist st) ->
            (j < Z.to_nat (thread_number cfg))%nat) as Hidx.
  { intros j calls Hin. pose proof (install_in_threads _ _ _ _ Hr Hin). lia. }
  assert (0 < thread_number cfg) as Htn.
  { destruct (history_ok _ _ Hr _ _ _ Hh) as (Harr & _).
    destruct (in_split _ _ Harr) as (mid & early & ->).
    pose proof (history_ok _ _ Hr (after ++ EvPass i :: mid) (EvArrive i) early)
      as Hone. rewrite Hh, <- app_assoc in Hone. specialize (Hone eq_refl).
    simpl in Hone.
    assert (exists calls, In (EvInstall i calls) early) as [calls Hin].
    { clear -Hone. induction early as [|e h IH]; simpl in Hone; [done|].
      destruct e; simpl in Hone; try (destruct (IH Hone) as [c ?];
        exists c; by right).
      case_bool_decide; simpl in Hone;
        [subst; eexists; by left|destruct (IH Hone) as [c ?]; exists c;
                                 by right]. }
    assert (i < Z.to_nat (thread_number cfg))%nat; [|lia].
    eapply Hidx. rewrite Hh. apply in_or_app. right. right.
    apply in_or_app. right. right. exact Hin. }
  assert (occurrences is_any_install before
          = Z.to_nat (thread_number cfg)) as Hbefore.
  { rewrite (occurrences_any_install _ (Z.to_nat (thread_number cfg))).
    - rewrite (sum_constant_seq _ 1%nat); [lia|].
      intros j Hj. apply Hall. lia.
    - intros j calls Hin. eapply Hidx. rewrite Hh. apply in_or_app.
      right. right. exact Hin. }
  assert (occurrences is_any_install (hist st)
          = Z.to_nat (thread_number cfg)) as Hwhole.
  { rewrite (occurrences_any_install _ (Z.to_nat (thread_number cfg)))
      by exact Hidx.
    rewrite (sum_constant_seq _ 1%nat); [lia|].
    intros j Hj. pose proof (install_at_most_once cfg st j Hr) as Hle.
    destruct (Hall j ltac:(lia)) as [Hone _].
    rewrite Hh, occurrences_app in Hle |- *. simpl in Hle |- *. lia. }
  split_and!.
  - lia.
  - rewrite Hh, occurrences_app in Hwhole. simpl in Hwhole. lia.
  - intros Hs j calls Hin. destruct (in_split _ _ Hin) as (post & pre & Hsp).
    destruct (history_ok _ _ Hr _ _ _ Hsp) as (-> & _).
    rewrite Hs. reflexivity.
Qed.

Lemma registrations_match_thread_count_witness :
  Z.of_nat (occurrences is_any_install (skipn 22 (hist st_small))) = 2.
Proof.
  refine (proj1 (registrations_match_thread_count cfg_small st_small
                   (firstn 21 (hist st_small)) 0%nat _ _ st_small_reachable _)).
  - vm_compute. split; discriminate.
  - vm_compute. reflexivity.
Defined.

(** ** Division by zero in the result *)

Lemma div_by_zero (x : float) : not_finite (x / double_of_Z 0) = true.
Proof.
  unfold not_finite. rewrite FloatAxioms.div_spec.
  change (Prim2SF (double_of_Z 0)) with (S754_zero false).
  by destruct (Prim2SF x) as [[]|[]| |[] ? ?].
Qed.

Lemma not_finite_div (x y : float) :
  not_finite x = true -> not_finite (x / y) = true.
Proof.
  unfold not_finite. rewrite FloatAxioms.div_spec.
  by destruct (Prim2SF x) as [[]|[]| |[] ? ?], (Prim2SF y) as [[]|[]| |[] ? ?].
Qed.

Lemma not_finite_mul (x y : float) :
  not_finite x = true -> not_finite (x * y) = true.
Proof.
  unfold not_finite. rewrite FloatAxioms.mul_spec.
  by destruct (Prim2SF x) as [[]|[]| |[] ? ?], (Prim2SF y) as [[]|[]| |[] ? ?].
Qed.

(** X11.  [bench_mark] does not guard the divisions of line 114: with
    [iterations] 0 or [fiber_number] 0 the inter context switch it prints is
    an infinity or a NaN, whatever the duration. *)
Theorem zero_divisor_not_finite (cfg : config) (duration : float) :
  iterations cfg = 0 \/ fiber_number cfg = 0 ->
  not_finite (inter_context_switch cfg duration) = true /\
  exists d, result_line cfg duration
            = [OStr " time: "; ODouble duration;
               OStr " inter context switch: "; ODouble d; OEndl] /\
            not_finite d = true.
Proof.
  intros H.
  assert (not_finite (inter_context_switch cfg duration) = true) as Hnf.
  { unfold inter_context_switch. apply not_finite_mul.
    destruct H as [-> | ->]; [apply not_finite_div|]; apply div_by_zero. }
  split; [exact Hnf|]. eexists. split; [reflexivity|exact Hnf].
Qed.

Lemma zero_divisor_not_finite_witness :
  not_finite (inter_context_switch cfg_empty 1.5) = true.
Proof.
  exact (proj1 (zero_divisor_not_finite cfg_empty 1.5%float
                  (or_intror eq_refl))).
Defined.
